(** * memoize: a shallow embedding of the function-result cache

    The development follows the TypeScript source and the distributed
    build [distribution/index.js]: the cache engine [memoize], the registry
    operation [memoizeClear] and the method adapter [memoizeDecorator].
    The two agree on [memoize] and [memoizeClear]; they differ in where the
    decorator keeps its per-receiver state, and both versions are given.

    JavaScript state is threaded explicitly through a [world] record:
    the heap of storage objects (the [Map]s used as caches), the host
    timer table, the two module-level [WeakMap]s [cacheStore] and
    [cacheTimerStore], and the per-receiver side tables of the decorator.
    Object identity is a natural number drawn from one allocator. *)

From stdpp Require Import gmap strings list fin_maps.
From Stdlib Require Import ZArith.

Local Open Scope Z_scope.

(** ** JavaScript values *)

(** Numbers: the whole numbers together with the three non-finite floats.
    Numbers with a fractional part are not represented: every statement
    below about a number ([maxAge], a key, a result) speaks of whole
    numbers, [NaN] and the infinities only.  There is one zero and one
    [NaN], so structural equality on [num] is exactly the [SameValueZero]
    comparison a [Map] applies to its keys. *)
Inductive num :=
| NInt (z : Z)
| NNaN
| NPosInf
| NNegInf.

Inductive value :=
| VUndefined
| VNull
| VBool (b : bool)
| VNum (n : num)
| VStr (s : string)
| VRef (id : nat)
| VTypeError (message : string).

#[global] Instance num_eq_dec : EqDecision num.
Proof. solve_decision. Defined.

#[global] Instance value_eq_dec : EqDecision value.
Proof. solve_decision. Defined.

#[global] Instance num_countable : Countable num.
Proof.
  refine (inj_countable'
    (λ n, match n with
          | NInt z => inl z
          | NNaN => inr 0%nat
          | NPosInf => inr 1%nat
          | NNegInf => inr 2%nat
          end)
    (λ s, match s with
          | inl z => NInt z
          | inr 0%nat => NNaN
          | inr 1%nat => NPosInf
          | inr _ => NNegInf
          end) _).
  by intros [].
Defined.

#[global] Instance value_countable : Countable value.
Proof.
  refine (inj_countable'
    (λ v, match v with
          | VUndefined => inl (inl false)
          | VNull => inl (inl true)
          | VBool b => inl (inr b)
          | VNum n => inr (inl n)
          | VStr s => inr (inr (inl (inl s)))
          | VTypeError s => inr (inr (inl (inr s)))
          | VRef i => inr (inr (inr i))
          end)
    (λ s, match s with
          | inl (inl false) => VUndefined
          | inl (inl true) => VNull
          | inl (inr b) => VBool b
          | inr (inl n) => VNum n
          | inr (inr (inl (inl s))) => VStr s
          | inr (inr (inl (inr s))) => VTypeError s
          | inr (inr (inr i)) => VRef i
          end) _).
  by intros [].
Defined.

(** [a > b] and [a < b] on numbers; every comparison with [NaN] is false. *)
Definition num_gt (a b : num) : bool :=
  match a, b with
  | NNaN, _ | _, NNaN => false
  | NInt x, NInt y => bool_decide (y < x)
  | NPosInf, NPosInf => false
  | NPosInf, _ => true
  | _, NNegInf => match a with NNegInf => false | _ => true end
  | _, _ => false
  end.

Definition num_lt (a b : num) : bool := num_gt b a.

(** [a + b]. *)
Definition num_add (a b : num) : num :=
  match a, b with
  | NNaN, _ | _, NNaN => NNaN
  | NInt x, NInt y => NInt (x + y)
  | NPosInf, NNegInf | NNegInf, NPosInf => NNaN
  | NPosInf, _ | _, NPosInf => NPosInf
  | NNegInf, _ | _, NNegInf => NNegInf
  end.

(** [ToBoolean]. *)
Definition num_truthy (n : num) : bool :=
  match n with
  | NInt z => negb (bool_decide (z = 0))
  | NNaN => false
  | NPosInf | NNegInf => true
  end.

Definition truthy (v : value) : bool :=
  match v with
  | VUndefined | VNull => false
  | VBool b => b
  | VNum n => num_truthy n
  | VStr s => negb (bool_decide (s = ""%string))
  | VRef _ | VTypeError _ => true
  end.

(** A [TypeError] object is represented by its message.

    The outcome of running a callable: normal completion or a throw. *)
Inductive outcome :=
| Return (v : value)
| Throw (e : value).

(** The outcome of a library operation: a result or a [TypeError]. *)
Inductive result (A : Type) :=
| Ok (a : A)
| TypeError (message : string).
Arguments Ok {A} a.
Arguments TypeError {A} message.

(** ** Storage *)

(** [CacheStorageContent]: the record a wrapper stores per key.  The
    source calls the second field [maxAge]; it holds the expiry instant. *)
Record CacheStorageContent := {
  data : value;
  expiresAt : num;
}.

(** A storage object honouring the [CacheStorage] contract: an exact-match
    map over the derived keys.  [has_clear] tells whether the object has a
    [clear] method ([Map] has one, [WeakMap] has none). *)
Record CacheStorage := {
  entries : gmap value CacheStorageContent;
  has_clear : bool;
}.

Definition new_Map : CacheStorage := {| entries := ∅; has_clear := true |}.

(** A pending host timer created by [setTimeout(() => cache.delete(key),
    maxAge)]: the storage and key its callback deletes, and the instant
    from which the host may run it. *)
Record timer := {
  t_cache : nat;
  t_key : value;
  t_due : Z;
}.

Definition maxSetIntervalValue : Z := 2147483647.

(** The delay the host applies: a delay below 1, above the 32-bit maximum
    or [NaN] is replaced by 1 millisecond. *)
Definition timer_delay (n : num) : Z :=
  match n with
  | NInt z => if bool_decide (1 ≤ z ≤ maxSetIntervalValue) then z else 1
  | _ => 1
  end.

(** ** Options *)

Record Options := {
  cacheKey : option (list value → value);
  cache : option nat;
  maxAge : option num;
}.

Definition no_options : Options :=
  {| cacheKey := None; cache := None; maxAge := None |}.

(** [cacheKey ? cacheKey(arguments_) : arguments_[0]] *)
Definition derive_key (ck : option (list value → value)) (arguments_ : list value) : value :=
  match ck with
  | Some f => f arguments_
  | None => default VUndefined (arguments_ !! 0%nat)
  end.

(** [maxAge ? Date.now() + maxAge : Number.POSITIVE_INFINITY] *)
Definition expiry (ma : option num) (date_now : Z) : num :=
  match ma with
  | Some m => if num_truthy m then num_add (NInt date_now) m else NPosInf
  | None => NPosInf
  end.

(** The range check of [memoize]: the error message, if any. *)
Definition maxAge_error (ma : option num) : option string :=
  match ma with
  | Some m =>
      if num_gt m (NInt maxSetIntervalValue)
      then Some "The `maxAge` option cannot exceed 2147483647."%string
      else if num_lt m (NInt 0)
      then Some "The `maxAge` option should not be a negative number."%string
      else None
  | None => None
  end.

Section Engine.

(** The state of the user's program (counters and the like), opaque to the
    library.  A user callable sees its receiver, its arguments and this
    state; it does not reach into the library's own tables. *)
Context {U : Type}.

Definition body := value → list value → U → outcome * U.

(** Function objects.  Every function has an identity [id]; a wrapper
    created by [memoize] closes over the original [function_], the key
    function, the storage object and [maxAge]. *)
Inductive func :=
| Orig (id : nat) (code : body)
| Bound (id : nat) (target : func) (bound_this : value)
| Memoized (id : nat) (function_ : func)
           (ck : option (list value → value)) (c : nat) (ma : option num).

Definition fid (f : func) : nat :=
  match f with
  | Orig id _ | Bound id _ _ | Memoized id _ _ _ _ => id
  end.

(** One invocation of a user callable, as recorded in the ghost trace. *)
Record invocation := {
  i_fn : nat;
  i_this : value;
  i_args : list value;
}.

Record world := {
  user : U;
  calls : list invocation;
  now : Z;
  next_id : nat;
  caches : gmap nat CacheStorage;
  timers : gmap nat timer;
  cacheStore : gmap nat nat;
  cacheTimerStore : gmap nat (gset nat);
  fslots : gmap (nat * nat) func;
  vslots : gmap (nat * nat) value;
}.

Definition set_user (u : U) (w : world) : world :=
  {| user := u; calls := calls w; now := now w; next_id := next_id w;
     caches := caches w; timers := timers w; cacheStore := cacheStore w;
     cacheTimerStore := cacheTimerStore w; fslots := fslots w; vslots := vslots w |}.

Definition set_calls (l : list invocation) (w : world) : world :=
  {| user := user w; calls := l; now := now w; next_id := next_id w;
     caches := caches w; timers := timers w; cacheStore := cacheStore w;
     cacheTimerStore := cacheTimerStore w; fslots := fslots w; vslots := vslots w |}.

Definition set_now (t : Z) (w : world) : world :=
  {| user := user w; calls := calls w; now := t; next_id := next_id w;
     caches := caches w; timers := timers w; cacheStore := cacheStore w;
     cacheTimerStore := cacheTimerStore w; fslots := fslots w; vslots := vslots w |}.

Definition set_next_id (n : nat) (w : world) : world :=
  {| user := user w; calls := calls w; now := now w; next_id := n;
     caches := caches w; timers := timers w; cacheStore := cacheStore w;
     cacheTimerStore := cacheTimerStore w; fslots := fslots w; vslots := vslots w |}.

Definition set_caches (m : gmap nat CacheStorage) (w : world) : world :=
  {| user := user w; calls := calls w; now := now w; next_id := next_id w;
     caches := m; timers := timers w; cacheStore := cacheStore w;
     cacheTimerStore := cacheTimerStore w; fslots := fslots w; vslots := vslots w |}.

Definition set_timers (m : gmap nat timer) (w : world) : world :=
  {| user := user w; calls := calls w; now := now w; next_id := next_id w;
     caches := caches w; timers := m; cacheStore := cacheStore w;
     cacheTimerStore := cacheTimerStore w; fslots := fslots w; vslots := vslots w |}.

Definition set_cacheStore (m : gmap nat nat) (w : world) : world :=
  {| user := user w; calls := calls w; now := now w; next_id := next_id w;
     caches := caches w; timers := timers w; cacheStore := m;
     cacheTimerStore := cacheTimerStore w; fslots := fslots w; vslots := vslots w |}.

Definition set_cacheTimerStore (m : gmap nat (gset nat)) (w : world) : world :=
  {| user := user w; calls := calls w; now := now w; next_id := next_id w;
     caches := caches w; timers := timers w; cacheStore := cacheStore w;
     cacheTimerStore := m; fslots := fslots w; vslots := vslots w |}.

Definition set_fslots (m : gmap (nat * nat) func) (w : world) : world :=
  {| user := user w; calls := calls w; now := now w; next_id := next_id w;
     caches := caches w; timers := timers w; cacheStore := cacheStore w;
     cacheTimerStore := cacheTimerStore w; fslots := m; vslots := vslots w |}.

Definition set_vslots (m : gmap (nat * nat) value) (w : world) : world :=
  {| user := user w; calls := calls w; now := now w; next_id := next_id w;
     caches := caches w; timers := timers w; cacheStore := cacheStore w;
     cacheTimerStore := cacheTimerStore w; fslots := fslots w; vslots := m |}.

(** A world with nothing allocated. *)
Definition empty_world (u : U) : world :=
  {| user := u; calls := []; now := 0; next_id := 0%nat;
     caches := ∅; timers := ∅; cacheStore := ∅; cacheTimerStore := ∅;
     fslots := ∅; vslots := ∅ |}.

(** Allocation of a fresh identity. *)
Definition fresh (w : world) : nat * world :=
  (next_id w, set_next_id (S (next_id w)) w).

(** *** Storage operations *)

(** The storage object behind an identity.  An identity that was never
    allocated reads as an empty [Map]. *)
Definition storage_of (c : nat) (w : world) : CacheStorage :=
  default new_Map (caches w !! c).

(** [cache.get(key)] *)
Definition cache_get (c : nat) (key : value) (w : world) : option CacheStorageContent :=
  entries (storage_of c w) !! key.

(** [cache.set(key, item)] *)
Definition cache_set (c : nat) (key : value) (item : CacheStorageContent) (w : world) : world :=
  let s := storage_of c w in
  set_caches (<[c := {| entries := <[key := item]> (entries s); has_clear := has_clear s |}]> (caches w)) w.

(** [cache.delete(key)] *)
Definition cache_delete (c : nat) (key : value) (w : world) : world :=
  let s := storage_of c w in
  set_caches (<[c := {| entries := delete key (entries s); has_clear := has_clear s |}]> (caches w)) w.

(** [cache.clear()] *)
Definition cache_clear (c : nat) (w : world) : world :=
  let s := storage_of c w in
  set_caches (<[c := {| entries := ∅; has_clear := has_clear s |}]> (caches w)) w.

(** [new Map()] *)
Definition alloc_Map (w : world) : nat * world :=
  let '(c, w1) := fresh w in
  (c, set_caches (<[c := new_Map]> (caches w1)) w1).

(** [new WeakMap()], used as a storage: it has no [clear]. *)
Definition alloc_WeakMap (w : world) : nat * world :=
  let '(c, w1) := fresh w in
  (c, set_caches (<[c := {| entries := ∅; has_clear := false |}]> (caches w1)) w1).

(** *** Timers *)

(** [setTimeout(() => { cache.delete(key); }, maxAge)] *)
Definition setTimeout (c : nat) (key : value) (delay : num) (w : world) : nat * world :=
  let '(t, w1) := fresh w in
  (t, set_timers (<[t := {| t_cache := c; t_key := key; t_due := now w + timer_delay delay |}]> (timers w1)) w1).

(** [clearTimeout(timer)] *)
Definition clearTimeout (t : nat) (w : world) : world :=
  set_timers (delete t (timers w)) w.

(** The lines of the wrapper that follow [cache.set]: schedule the
    eviction and record its handle under the identity [f] in
    [cacheTimerStore]. *)
Definition register_timer (f : nat) (c : nat) (key : value) (delay : num) (w : world) : world :=
  let '(t, w1) := setTimeout c key delay w in
  let timers_ := default ∅ (cacheTimerStore w1 !! f) in
  set_cacheTimerStore (<[f := timers_ ∪ {[t]}]> (cacheTimerStore w1)) w1.

(** [if (typeof maxAge === 'number' && maxAge !== Number.POSITIVE_INFINITY)
    { ... }] *)
Definition schedule (ma : option num) (f : nat) (c : nat) (key : value) (w : world) : world :=
  match ma with
  | Some m => if bool_decide (m = NPosInf) then w else register_timer f c key m w
  | None => w
  end.

(** The handles [cacheTimerStore] holds for an identity. *)
Definition recorded (h : nat) (w : world) : gset nat :=
  default ∅ (cacheTimerStore w !! h).

(** Time passes. *)
Definition advance (dt : Z) (w : world) : world := set_now (now w + dt) w.

(** The host runs the callback of a pending timer that is due. *)
Definition fire (t : nat) (w : world) : option world :=
  match timers w !! t with
  | Some tm =>
      if bool_decide (t_due tm ≤ now w)
      then Some (cache_delete (t_cache tm) (t_key tm) (set_timers (delete t (timers w)) w))
      else None
  | None => None
  end.

(** *** Calling a function *)

Definition log_call (id : nat) (this : value) (arguments_ : list value) (w : world) : world :=
  set_calls (calls w ++ [{| i_fn := id; i_this := this; i_args := arguments_ |}]) w.

(** [f.apply(this, arguments_)].  The [Memoized] case is the body of the
    closure [memoized] in [memoize]. *)
Fixpoint call (f : func) (this : value) (arguments_ : list value) (w : world) : outcome * world :=
  match f with
  | Orig id code =>
      let '(r, u) := code this arguments_ (user w) in
      (r, set_user u (log_call id this arguments_ w))
  | Bound _ target bound_this => call target bound_this arguments_ w
  | Memoized _ function_ ck c ma =>
      let key := derive_key ck arguments_ in
      match cache_get c key w with
      | Some cacheItem => (Return (data cacheItem), w)
      | None =>
          match call function_ this arguments_ w with
          | (Throw e, w1) => (Throw e, w1)
          | (Return result, w1) =>
              let w2 := cache_set c key {| data := result; expiresAt := expiry ma (now w1) |} w1 in
              (Return result, schedule ma (fid function_) c key w2)
          end
      end
  end.

(** A function declared by the user's program, and [f.bind(this)]: both
    are new function objects. *)
Definition declare (code : body) (w : world) : func * world :=
  let '(id, w1) := fresh w in (Orig id code, w1).

Definition bind (f : func) (this : value) (w : world) : func * world :=
  let '(id, w1) := fresh w in (Bound id f this, w1).

(** *** memoize

    [mimicFunction] copies the name, length and properties of the original
    onto the wrapper and [timer.unref] only tells the host not to wait for
    the timer; neither has an effect on the state modelled here. *)

(** [maxAge === 0] *)
Definition is_zero (ma : option num) : bool := bool_decide (ma = Some (NInt 0)).

Definition memoize (function_ : func) (o : Options) (w : world) : result func * world :=
  (* the parameter default [cache = new Map()] *)
  let '(c, w0) := match cache o with
                  | Some c => (c, w)
                  | None => alloc_Map w
                  end in
  if is_zero (maxAge o) then (Ok function_, w0)
  else match maxAge_error (maxAge o) with
       | Some message => (TypeError message, w0)
       | None =>
           let '(id, w1) := fresh w0 in
           let memoized := Memoized id function_ (cacheKey o) c (maxAge o) in
           (Ok memoized, set_cacheStore (<[id := c]> (cacheStore w1)) w1)
       end.

(** *** memoizeClear *)

Definition memoizeClear (function_ : func) (w : world) : result unit * world :=
  match cacheStore w !! fid function_ with
  | None => (TypeError "Can't clear a function that was not memoized!", w)
  | Some c =>
      if has_clear (storage_of c w)
      then
        let w1 := cache_clear c w in
        (Ok (), set_fold clearTimeout w1 (recorded (fid function_) w1))
      else (TypeError "The cache Map can't be cleared!", w)
  end.

End Engine.

(** ** The method adapter *)

Section Descriptors.

Context {U : Type}.

(** What a property descriptor holds in [value] or [get]: a function or
    some other value ([undefined] when the field is absent). *)
Inductive property :=
| PValue (v : value)
| PFunction (f : @func U).

Record PropertyDescriptor := {
  d_value : property;
  d_get : property;
}.

(** [typeof p === 'function'] *)
Definition is_function (p : property) : bool :=
  match p with
  | PFunction _ => true
  | PValue _ => false
  end.

Definition is_undefined (p : property) : bool :=
  match p with
  | PValue VUndefined => true
  | _ => false
  end.

(** [p ?? q] replaces [undefined] and [null]; [p || q] replaces every falsy
    value. *)
Definition nullish (p : property) : bool :=
  match p with
  | PValue VUndefined | PValue VNull => true
  | _ => false
  end.

Definition property_truthy (p : property) : bool :=
  match p with
  | PValue v => truthy v
  | PFunction _ => true
  end.

(** The descriptor after decoration: its [get] or its [value] is one of
    the two closures the decorator builds.  [table] is the identity of the
    side table the closure keeps its per-receiver state in. *)
Inductive decorated :=
| DGetter (originalMethod : @func U) (table : nat)
| DMethod (originalMethod : @func U) (options : Options) (table : nat).

End Descriptors.

(** What the distributed build needs to know of an object used as a
    receiver: the identities of the objects on its prototype chain, nearest
    first, and whether properties can still be added to it.  The library
    changes neither; the objects of a program are given as a function from
    identities. *)
Record object := {
  prototypes : list nat;
  extensible : bool;
}.

(** [o[key]] on the object whose own slot comes first in [chain], followed
    by those of its prototypes: the first slot that holds something. *)
Fixpoint get_property {A : Type} (slots : gmap (nat * nat) A) (key : nat)
    (chain : list nat) : option A :=
  match chain with
  | [] => None
  | x :: rest =>
      match slots !! (key, x) with
      | Some v => Some v
      | None => get_property slots key rest
      end
  end.

(** The host's errors for a property that cannot be created; the texts are
    the host's, shortened by the description of the symbol. *)
Definition cannot_define : string :=
  "Cannot define property, object is not extensible".

Definition cannot_add : string :=
  "Cannot add property, object is not extensible".

(** The TypeScript source, [index.ts]: the per-receiver state lives in two
    [WeakMap]s created by [memoizeDecorator]; an entry of the [WeakMap]
    [table] for the receiver [this] is the slot [(table, this)]. *)
Module Source.
Section Source.

Context {U : Type}.

Record decorator := {
  d_options : Options;
  memoizedMethodsMap : nat;
  memoizedValuesMap : nat;
}.

Definition memoizeDecorator (options : Options) (w : @world U) : decorator * @world U :=
  let '(mm, w1) := fresh w in
  let '(mv, w2) := fresh w1 in
  ({| d_options := options; memoizedMethodsMap := mm; memoizedValuesMap := mv |}, w2).

(** The decorator itself, applied to a descriptor. *)
Definition decorator_apply (d : decorator) (descriptor : @PropertyDescriptor U) : result (@decorated U) :=
  let originalIsGetter := is_function (d_get descriptor) in
  let originalIsValue := negb (is_undefined (d_value descriptor)) in
  let originalMethod :=
    if nullish (d_value descriptor) then d_get descriptor else d_value descriptor in
  match originalMethod with
  | PValue _ => TypeError "The decorated value must be a function or a getter"
  | PFunction f =>
      if originalIsGetter then Ok (DGetter f (memoizedValuesMap d))
      else if originalIsValue then Ok (DMethod f (d_options d) (memoizedMethodsMap d))
      else Ok (DMethod f (d_options d) (memoizedMethodsMap d))
  end.

(** [descriptor.get = function () { ... }] *)
Definition memoized_get (originalMethod : @func U) (table : nat) (this : nat) (w : @world U) : outcome * @world U :=
  match vslots w !! (table, this) with
  | Some v => (Return v, w)
  | None =>
      match call originalMethod (VRef this) [] w with
      | (Throw e, w1) => (Throw e, w1)
      | (Return v, w1) => (Return v, set_vslots (<[(table, this) := v]> (vslots w1)) w1)
      end
  end.

(** [descriptor.value = function (...arguments_) { ... }].  [memoize]
    never returns [undefined], so the fallback
    [originalMethod.call(this, ...arguments_)] of the source has no case
    here. *)
Definition memoized_value (originalMethod : @func U) (options : Options) (table : nat)
    (this : nat) (arguments_ : list value) (w : @world U) : outcome * @world U :=
  match fslots w !! (table, this) with
  | Some memoizedFunction => call memoizedFunction VUndefined arguments_ w
  | None =>
      let '(bound, w1) := bind originalMethod (VRef this) w in
      match memoize bound options w1 with
      | (TypeError message, w2) => (Throw (VTypeError message), w2)
      | (Ok memoizedFunction, w2) =>
          let w3 := set_fslots (<[(table, this) := memoizedFunction]> (fslots w2)) w2 in
          call memoizedFunction VUndefined arguments_ w3
      end
  end.

(** Using the decorated property on a receiver: reading it when it is a
    getter, calling it when it is a method. *)
Definition use (d : @decorated U) (this : nat) (arguments_ : list value) (w : @world U)
    : outcome * @world U :=
  match d with
  | DGetter originalMethod table => memoized_get originalMethod table this w
  | DMethod originalMethod options table =>
      memoized_value originalMethod options table this arguments_ w
  end.

End Source.
End Source.

(** The distributed build, [distribution/index.js]: the per-receiver state
    is a property of the receiver under a private [Symbol] created when the
    decorator is applied; the own property [memoizedKey] of the object
    [x] is the slot [(memoizedKey, x)].  The module is strict code: an
    assignment that cannot create its property throws. *)
Module Distribution.
Section Distribution.

Context {U : Type}.

Variable objects : nat → object.

Record decorator := {
  d_options : Options;
}.

Definition memoizeDecorator (options : Options) : decorator :=
  {| d_options := options |}.

Definition decorator_apply (d : decorator) (descriptor : @PropertyDescriptor U) (w : @world U)
    : result (@decorated U) * @world U :=
  let isGetter := property_truthy (d_get descriptor) in
  let originalMethod :=
    if property_truthy (d_value descriptor) then d_value descriptor else d_get descriptor in
  match originalMethod with
  | PValue _ => (TypeError "The decorated value must be a function or a getter", w)
  | PFunction f =>
      if negb isGetter
      then let '(memoizedKey, w1) := fresh w in (Ok (DMethod f (d_options d) memoizedKey), w1)
      else let '(memoizedKey, w1) := fresh w in (Ok (DGetter f memoizedKey), w1)
  end.

(** [descriptor.get = function () { ... }].  [Object.hasOwn] looks at the
    receiver's own property only; [Object.defineProperty] throws on a
    receiver that is not extensible, after the getter has run. *)
Definition memoized_get (originalMethod : @func U) (memoizedKey : nat) (this : nat) (w : @world U) : outcome * @world U :=
  match vslots w !! (memoizedKey, this) with
  | Some v => (Return v, w)
  | None =>
      match call originalMethod (VRef this) [] w with
      | (Throw e, w1) => (Throw e, w1)
      | (Return v, w1) =>
          if extensible (objects this)
          then (Return v, set_vslots (<[(memoizedKey, this) := v]> (vslots w1)) w1)
          else (Throw (VTypeError cannot_define), w1)
      end
  end.

(** [this[memoizedKey] ||= memoize(originalMethod.bind(this), options);
    return this[memoizedKey](...arguments_);]  The read goes through the
    prototype chain; what it finds is a function, hence truthy.  When it
    finds nothing, the right-hand side is evaluated and then assigned to
    an own property of the receiver, which throws on a receiver that is
    not extensible. *)
Definition memoized_value (originalMethod : @func U) (options : Options) (memoizedKey : nat)
    (this : nat) (arguments_ : list value) (w : @world U) : outcome * @world U :=
  match get_property (fslots w) memoizedKey (this :: prototypes (objects this)) with
  | Some memoizedFunction => call memoizedFunction (VRef this) arguments_ w
  | None =>
      let '(bound, w1) := bind originalMethod (VRef this) w in
      match memoize bound options w1 with
      | (TypeError message, w2) => (Throw (VTypeError message), w2)
      | (Ok memoizedFunction, w2) =>
          if extensible (objects this)
          then
            let w3 := set_fslots (<[(memoizedKey, this) := memoizedFunction]> (fslots w2)) w2 in
            call memoizedFunction (VRef this) arguments_ w3
          else (Throw (VTypeError cannot_add), w2)
      end
  end.

Definition use (d : @decorated U) (this : nat) (arguments_ : list value) (w : @world U)
    : outcome * @world U :=
  match d with
  | DGetter originalMethod memoizedKey => memoized_get originalMethod memoizedKey this w
  | DMethod originalMethod options memoizedKey =>
      memoized_value originalMethod options memoizedKey this arguments_ w
  end.

End Distribution.
End Distribution.

(** ** Sequences of operations *)

Section Drivers.

Context {U : Type}.

(** Reading a decorated getter on one receiver after the other. *)
Fixpoint reads (get : nat → @world U → outcome * @world U)
    (receivers : list nat) (w : @world U) : @world U :=
  match receivers with
  | [] => w
  | this :: rest => reads get rest (snd (get this w))
  end.

(** Invoking a decorated method, each time on a receiver with arguments. *)
Fixpoint invocations (method : nat → list value → @world U → outcome * @world U)
    (history : list (nat * list value)) (w : @world U) : @world U :=
  match history with
  | [] => w
  | (this, arguments_) :: rest => invocations method rest (snd (method this arguments_ w))
  end.

(** The two builds of the decorated method differ only in the receiver
    they hand to the remembered function: [undefined] in the source, the
    instance in the distributed build. *)
Definition memoized_value_with (pass : nat → value)
    (originalMethod : @func U) (options : Options) (table : nat)
    (this : nat) (arguments_ : list value) (w : @world U) : outcome * @world U :=
  match fslots w !! (table, this) with
  | Some memoizedFunction => call memoizedFunction (pass this) arguments_ w
  | None =>
      let '(bound, w1) := bind originalMethod (VRef this) w in
      match memoize bound options w1 with
      | (TypeError message, w2) => (Throw (VTypeError message), w2)
      | (Ok memoizedFunction, w2) =>
          let w3 := set_fslots (<[(table, this) := memoizedFunction]> (fslots w2)) w2 in
          call memoizedFunction (pass this) arguments_ w3
      end
  end.

(** Likewise the two builds of the decorated getter differ only in whether
    fixing the value can fail: never in the source, on a receiver that is
    not extensible in the distributed build. *)
Definition memoized_get_with (can_fix : nat → bool)
    (originalMethod : @func U) (table : nat) (this : nat) (w : @world U)
    : outcome * @world U :=
  match vslots w !! (table, this) with
  | Some v => (Return v, w)
  | None =>
      match call originalMethod (VRef this) [] w with
      | (Throw e, w1) => (Throw e, w1)
      | (Return v, w1) =>
          if can_fix this
          then (Return v, set_vslots (<[(table, this) := v]> (vslots w1)) w1)
          else (Throw (VTypeError cannot_define), w1)
      end
  end.

(** Receivers that the distributed build keeps apart: each of them is
    extensible and none is on the prototype chain of another. *)
Definition unrelated (objects : nat → object) (ids : list nat) : Prop :=
  ∀ r, r ∈ ids →
    extensible (objects r) = true ∧
    ∀ p, p ∈ prototypes (objects r) → p ∉ ids.




End Drivers.

(** ** Programs over the library *)

Section Programs.

Context {U : Type}.

(** The user callable a function object ends in, and the receiver it is
    run with when the function object is called with [this]: a wrapper
    passes its receiver on, a bound function replaces it. *)
Fixpoint target_of (f : @func U) (this : value) : nat * value :=
  match f with
  | Orig id _ => (id, this)
  | Bound _ target bound_this => target_of target bound_this
  | Memoized _ function_ _ _ _ => target_of function_ this
  end.

(** Function objects whose behaviour does not depend on the receiver they
    are called with: bound functions and wrappers around them. *)
Fixpoint ignores_this (f : @func U) : bool :=
  match f with
  | Orig _ _ => false
  | Bound _ _ _ => true
  | Memoized _ function_ _ _ _ => ignores_this function_
  end.

(** The storage slots a call of [f] with [arguments_] may write: for every
    wrapper of the chain, its storage under the key it derives. *)
Fixpoint slots_of (f : @func U) (arguments_ : list value) : list (nat * value) :=
  match f with
  | Orig _ _ => []
  | Bound _ target _ => slots_of target arguments_
  | Memoized _ function_ ck c _ => (c, derive_key ck arguments_) :: slots_of function_ arguments_
  end.

(** One step of a program using the library: calling a function object,
    [memoize], [memoizeClear], the host running a timer, time passing. *)
Inductive operation :=
| DoCall (f : @func U) (this : value) (arguments_ : list value)
| DoMemoize (f : @func U) (o : Options)
| DoClear (f : @func U)
| DoFire (t : nat)
| DoAdvance (dt : Z).

Definition step (x : operation) (w : @world U) : @world U :=
  match x with
  | DoCall f this arguments_ => snd (call f this arguments_ w)
  | DoMemoize f o => snd (memoize f o w)
  | DoClear f => snd (memoizeClear f w)
  | DoFire t => default w (fire t w)
  | DoAdvance dt => advance dt w
  end.

Fixpoint run (program : list operation) (w : @world U) : @world U :=
  match program with
  | [] => w
  | x :: rest => run rest (step x w)
  end.

(** [w'] continues [w]: the allocator has not gone back, no handle has
    left a recorded set, the associations and the absent timers below the
    allocator of [w] are as in [w]. *)
Definition extends (w w' : @world U) : Prop :=
  (next_id w ≤ next_id w')%nat ∧
  (∀ h, recorded h w ⊆ recorded h w') ∧
  (∀ i, (i < next_id w)%nat → cacheStore w' !! i = cacheStore w !! i) ∧
  (∀ t, (t < next_id w)%nat → timers w !! t = None → timers w' !! t = None).

End Programs.

(** * Concrete programs

    Small programs over a user state that is one counter, on which the
    statements below are run. *)

(** [let index = 0; const counter = () => ++index;] *)
Definition counter : @body nat :=
  λ _ _ index, (Return (VNum (NInt (Z.of_nat (S index)))), S index).

(** A method answering with its receiver; a function that throws; a
    function returning [0]. *)
Definition whoami : @body nat := λ this _ n, (Return this, S n).

Definition failing : @body nat := λ _ _ n, (Throw (VStr "boom"), S n).

Definition zero : @body nat := λ _ _ n, (Return (VNum (NInt 0)), S n).

Definition with_maxAge (z : Z) : Options :=
  {| cacheKey := None; cache := None; maxAge := Some (NInt z) |}.

Definition with_cache (c : nat) : Options :=
  {| cacheKey := None; cache := Some c; maxAge := None |}.

Definition unwrap (fallback : @func nat) (r : result (@func nat)) : @func nat :=
  match r with
  | Ok f => f
  | TypeError _ => fallback
  end.

(** [const memoized = memoize(counter, {maxAge: 1000}); memoized('foo');] *)
Definition counter_f : @func nat := fst (declare counter (empty_world 0%nat)).

Definition counter_w : @world nat := snd (declare counter (empty_world 0%nat)).

Definition timed : @func nat := unwrap counter_f (fst (memoize counter_f (with_maxAge 1000) counter_w)).

Definition timed_w : @world nat := snd (memoize counter_f (with_maxAge 1000) counter_w).

Definition timed_called : @world nat := snd (call timed VUndefined [VStr "foo"] timed_w).

(** Half a second later [memoizeClear(memoized)], then [memoized('foo')]
    again, and another half second. *)
Definition cleared_w : @world nat := snd (memoizeClear timed (advance 500 timed_called)).

Definition refilled_w : @world nat := snd (call timed VUndefined [VStr "foo"] cleared_w).

Definition later_w : @world nat := advance 500 refilled_w.

(** [const outer = memoize(memoized, {maxAge: 1000}); outer('foo');] *)
Definition outer : @func nat := unwrap timed (fst (memoize timed (with_maxAge 1000) timed_w)).

Definition outer_w : @world nat := snd (memoize timed (with_maxAge 1000) timed_w).

Definition outer_called : @world nat := snd (call outer VUndefined [VStr "foo"] outer_w).

(** [memoize(counter, {cache: new WeakMap()})] *)
Definition weak_w : @world nat := snd (alloc_WeakMap counter_w).

Definition weak : @func nat :=
  unwrap counter_f (fst (memoize counter_f (with_cache (fst (alloc_WeakMap counter_w))) weak_w)).

Definition weak_memoized_w : @world nat :=
  snd (memoize counter_f (with_cache (fst (alloc_WeakMap counter_w))) weak_w).

(** [memoize(failing)] and [memoize(zero)] *)
Definition failing_f : @func nat := fst (declare failing (empty_world 0%nat)).

Definition failing_w : @world nat :=
  snd (memoize failing_f no_options (snd (declare failing (empty_world 0%nat)))).

Definition zero_f : @func nat := fst (declare zero (empty_world 0%nat)).

Definition zero_w : @world nat :=
  snd (memoize zero_f no_options (snd (declare zero (empty_world 0%nat)))).

(** A class with a method [whoami] decorated by
    [memoizeDecorator({cache: new Map()})], and two instances. *)
Definition whoami_f : @func nat := fst (declare whoami (empty_world 0%nat)).


Definition class_w : @world nat := snd (alloc_Map (snd (declare whoami (empty_world 0%nat)))).

Definition instance_a : nat := 100.

Definition instance_b : nat := 200.

Definition a_method (f : @func nat) : @PropertyDescriptor nat :=
  {| d_value := PFunction f; d_get := PValue VUndefined |}.

Definition a_getter (f : @func nat) : @PropertyDescriptor nat :=
  {| d_value := PValue VUndefined; d_get := PFunction f |}.

(** The decorated [whoami], in the source and in the distributed build;
    [decorated_or d r] is [d] when the decoration [r] threw. *)
Definition decorated_or (d : @decorated nat) (r : result (@decorated nat)) : @decorated nat :=
  match r with
  | Ok x => x
  | TypeError _ => d
  end.





(** Three object graphs on the two instances: ordinary objects without
    memoized ancestors; [instance_b] created with [instance_a] as its
    prototype ([Object.create(a)], or a subclass and its superclass for a
    static member); and [instance_a] frozen ([Object.freeze(a)]). *)
Definition plain_objects : nat → object :=
  λ _, {| prototypes := []; extensible := true |}.


Definition frozen_objects : nat → object :=
  λ x, {| prototypes := []; extensible := negb (Nat.eqb x instance_a) |}.



(** A getter whose body is [failing], and one whose body is [counter],
    decorated by [memoizeDecorator()]. *)
Definition failing_declared_w : @world nat := snd (declare failing (empty_world 0%nat)).

Definition failing_getter_source : @decorated nat :=
  decorated_or (DMethod failing_f no_options 0)
    (Source.decorator_apply
       (fst (Source.memoizeDecorator no_options failing_declared_w)) (a_getter failing_f)).

Definition failing_getter_source_w : @world nat :=
  snd (Source.memoizeDecorator no_options failing_declared_w).

Definition failing_getter_distribution : @decorated nat :=
  decorated_or (DMethod failing_f no_options 0)
    (fst (Distribution.decorator_apply
            (Distribution.memoizeDecorator no_options) (a_getter failing_f)
            failing_declared_w)).

Definition failing_getter_distribution_w : @world nat :=
  snd (Distribution.decorator_apply
         (Distribution.memoizeDecorator no_options) (a_getter failing_f)
         failing_declared_w).

Definition counter_getter_distribution : @decorated nat :=
  decorated_or (DMethod counter_f no_options 0)
    (fst (Distribution.decorator_apply
            (Distribution.memoizeDecorator no_options) (a_getter counter_f) counter_w)).

Definition counter_getter_distribution_w : @world nat :=
  snd (Distribution.decorator_apply
         (Distribution.memoizeDecorator no_options) (a_getter counter_f) counter_w).

(** Two functions memoized over one [Map]:
    [const m = new Map(); memoize(counter, {cache: m}); memoize(zero, {cache: m})]. *)
Definition pair_zero : @func nat := fst (declare zero counter_w).

Definition pair_map : nat := fst (alloc_Map (snd (declare zero counter_w))).

Definition pair_first : @func nat :=
  unwrap counter_f
    (fst (memoize counter_f (with_cache pair_map) (snd (alloc_Map (snd (declare zero counter_w)))))).

Definition pair_second : @func nat :=
  unwrap pair_zero
    (fst (memoize pair_zero (with_cache pair_map)
            (snd (memoize counter_f (with_cache pair_map)
                    (snd (alloc_Map (snd (declare zero counter_w)))))))).

Definition pair_w : @world nat :=
  snd (memoize pair_zero (with_cache pair_map)
         (snd (memoize counter_f (with_cache pair_map)
                 (snd (alloc_Map (snd (declare zero counter_w))))))).

(** A program on the wrapper of [counter]: a call, a clear, a second pass
    and the first timer's turn. *)
Definition a_program : list (@operation nat) :=
  [DoCall timed VUndefined [VStr "foo"]; DoClear timed; DoAdvance 1000; DoFire 3].

(** * Properties *)

Section Properties.

Context {U : Type}.

Implicit Types (w : @world U) (f fn : @func U) (o : Options).
Implicit Types (this key : value).

(** ** Storage and timers *)

Lemma cache_get_set_eq c key item w :
  cache_get c key (cache_set c key item w) = Some item.
Proof.
  unfold cache_get, cache_set, storage_of. simpl.
  rewrite lookup_insert_eq. simpl. apply lookup_insert_eq.
Qed.

Lemma cache_get_set_ne c c' key key' item w :
  (c, key) ≠ (c', key') →
  cache_get c' key' (cache_set c key item w) = cache_get c' key' w.
Proof.
  intros Hne. unfold cache_get, cache_set, storage_of. simpl.
  destruct (decide (c = c')) as [->|Hc].
  - rewrite lookup_insert_eq. simpl.
    rewrite lookup_insert_ne; [done | congruence].
  - by rewrite lookup_insert_ne.
Qed.

Lemma cache_get_clear c key w : cache_get c key (cache_clear c w) = None.
Proof.
  unfold cache_get, cache_clear, storage_of. simpl.
  rewrite lookup_insert_eq. simpl. apply lookup_empty.
Qed.

(** What [schedule] leaves alone: everything but the timer table, the
    recorded handles and the allocator. *)
Lemma schedule_frame ma (h c : nat) key w :
  let w' := schedule ma h c key w in
  user w' = user w ∧ calls w' = calls w ∧ now w' = now w ∧
  caches w' = caches w ∧ cacheStore w' = cacheStore w ∧
  fslots w' = fslots w ∧ vslots w' = vslots w ∧
  (next_id w ≤ next_id w')%nat.
Proof.
  unfold schedule. destruct ma as [m|]; [|repeat split; lia].
  case_bool_decide; [repeat split; lia|].
  unfold register_timer, setTimeout. simpl. repeat split; lia.
Qed.

Lemma cache_get_schedule ma (h c : nat) key c' key' w :
  cache_get c' key' (schedule ma h c key w) = cache_get c' key' w.
Proof.
  unfold cache_get, storage_of.
  by destruct (schedule_frame ma h c key w) as (_ & _ & _ & -> & _).
Qed.

(** After [memoizeClear]'s loop, exactly the listed handles have left the
    host's timer table; nothing else moved. *)
Lemma clear_all_timers (X : gset nat) w :
  ∃ m, set_fold clearTimeout w X = set_timers m w ∧
       ∀ t, m !! t = if bool_decide (t ∈ X) then None else timers w !! t.
Proof.
  pose (P := λ (w' : @world U) (Y : gset nat),
    ∃ m, w' = set_timers m w ∧
         ∀ t, m !! t = if bool_decide (t ∈ Y) then None else timers w !! t).
  cut (P (set_fold clearTimeout w X) X); [done|].
  apply (set_fold_ind_L P); unfold P.
  - exists (timers w). split; [by destruct w|].
    intros t. rewrite bool_decide_eq_false_2; [done | apply not_elem_of_empty].
  - intros x Y w' Hx (m & -> & Hm).
    exists (delete x m). split; [done|].
    intros t. destruct (decide (t = x)) as [->|Hne].
    + rewrite lookup_delete_eq. rewrite bool_decide_eq_true_2; [done|].
      apply elem_of_union. left. by apply elem_of_singleton.
    + rewrite lookup_delete_ne by done. rewrite Hm.
      apply (f_equal (λ b : bool, if b then None else timers w !! t)).
      apply bool_decide_ext. rewrite elem_of_union, elem_of_singleton. tauto.
Qed.

(** ** The wrapper's two paths *)

Lemma call_hit id function_ ck c ma this arguments_ w cacheItem :
  cache_get c (derive_key ck arguments_) w = Some cacheItem →
  call (Memoized id function_ ck c ma) this arguments_ w = (Return (data cacheItem), w).
Proof. intros H. simpl. by rewrite H. Qed.

Lemma call_miss id function_ ck c ma this arguments_ w :
  cache_get c (derive_key ck arguments_) w = None →
  call (Memoized id function_ ck c ma) this arguments_ w =
  match call function_ this arguments_ w with
  | (Throw e, w1) => (Throw e, w1)
  | (Return result, w1) =>
      (Return result,
       schedule ma (fid function_) c (derive_key ck arguments_)
         (cache_set c (derive_key ck arguments_)
            {| data := result; expiresAt := expiry ma (now w1) |} w1))
  end.
Proof. intros H. simpl. by rewrite H. Qed.

(** A call never touches the registry of wrappers, the decorator's side
    tables or the clock, and only ever allocates. *)
Lemma call_frame f : ∀ this arguments_ w,
  let w' := snd (call f this arguments_ w) in
  cacheStore w' = cacheStore w ∧ fslots w' = fslots w ∧ vslots w' = vslots w ∧
  now w' = now w ∧ (next_id w ≤ next_id w')%nat.
Proof.
  induction f as [id code | id target IH bt | id fn IH ck c ma]; intros this arguments_ w; simpl.
  - destruct (code this arguments_ (user w)) as [r u]. simpl. repeat split; lia.
  - apply IH.
  - destruct (cache_get c (derive_key ck arguments_) w) as [item|]; simpl.
    { repeat split; lia. }
    specialize (IH this arguments_ w).
    destruct (call fn this arguments_ w) as [[r|e] w1]; simpl in *; [|exact IH].
    destruct IH as (H1 & H2 & H3 & H4 & H5).
    destruct (schedule_frame ma (fid fn) c (derive_key ck arguments_)
      (cache_set c (derive_key ck arguments_)
         {| data := r; expiresAt := expiry ma (now w1) |} w1))
      as (_ & _ & G3 & _ & G5 & G6 & G7 & G8).
    simpl in *. rewrite G3, G5, G6, G7. repeat split; try done. lia.
Qed.

(** A call that throws leaves every table of the library as it found it:
    only the user's state and the invocation trace have moved. *)
Lemma call_throw_frame f : ∀ this arguments_ w e w1,
  call f this arguments_ w = (Throw e, w1) →
  caches w1 = caches w ∧ timers w1 = timers w ∧
  cacheTimerStore w1 = cacheTimerStore w ∧ cacheStore w1 = cacheStore w ∧
  next_id w1 = next_id w.
Proof.
  induction f as [id code | id target IH bt | id fn IH ck c ma]; intros this arguments_ w e w1; simpl.
  - destruct (code this arguments_ (user w)) as [r u]. intros [= _ <-]. done.
  - apply IH.
  - destruct (cache_get c (derive_key ck arguments_) w) as [item|]; [done|].
    destruct (call fn this arguments_ w) as [[r|e'] w'] eqn:Hc; [done|].
    intros [= _ <-]. by eapply IH.
Qed.

(** A value just stored is what the next lookup of the same key finds. *)
Lemma stored_then_found ma (h c : nat) key item w :
  cache_get c key (schedule ma h c key (cache_set c key item w)) = Some item.
Proof. rewrite cache_get_schedule. apply cache_get_set_eq. Qed.

Lemma repeat_call_hits id function_ ck (c h : nat) ma ma' this arguments_ key item w :
  derive_key ck arguments_ = key →
  let w' := schedule ma' h c key (cache_set c key item w) in
  call (Memoized id function_ ck c ma) this arguments_ w' = (Return (data item), w').
Proof.
  intros Hk w'. apply call_hit. rewrite Hk. apply stored_then_found.
Qed.

(** ** The cache engine *)

(** C1. The wrapper returned by [memoize] derives its key with [cacheKey]
    when one is configured and from the first argument otherwise; its
    default storage starts empty, so a first call misses; on a hit
    it returns the stored data and leaves the world, hence the invocation
    trace, untouched; on a miss it runs the original with the given
    receiver and arguments, returns its result and stores it under the key,
    so that any following call deriving the same key returns that very
    value without running the original again. *)
Theorem memoized_lookup_or_compute function_ o w :
  maxAge o ≠ Some (NInt 0) →
  maxAge_error (maxAge o) = None →
  (∀ k arguments_, derive_key (Some k) arguments_ = k arguments_) ∧
  (∀ arguments_, derive_key None arguments_ = default VUndefined (head arguments_)) ∧
  ∃ id c w1,
    let memoized := Memoized id function_ (cacheKey o) c (maxAge o) in
    memoize function_ o w = (Ok memoized, w1) ∧
    cacheStore w1 !! id = Some c ∧
    (cache o = None → ∀ key, cache_get c key w1 = None) ∧
    ∀ this arguments_ w2,
      let key := derive_key (cacheKey o) arguments_ in
      match cache_get c key w2 with
      | Some cacheItem =>
          call memoized this arguments_ w2 = (Return (data cacheItem), w2)
      | None =>
          match call function_ this arguments_ w2 with
          | (Throw e, w3) => call memoized this arguments_ w2 = (Throw e, w3)
          | (Return r, w3) =>
              ∃ w4, call memoized this arguments_ w2 = (Return r, w4) ∧
                    data <$> cache_get c key w4 = Some r ∧
                    user w4 = user w3 ∧ calls w4 = calls w3 ∧
                    ∀ this' arguments', derive_key (cacheKey o) arguments' = key →
                      call memoized this' arguments' w4 = (Return r, w4)
          end
      end.
Proof.
  intros Hz Herr. split; [done|]. split; [by intros [|x l]|].
  unfold memoize.
  destruct (match cache o with Some c => (c, w) | None => alloc_Map w end)
    as [c w0] eqn:Hc.
  unfold is_zero. rewrite bool_decide_eq_false_2 by done. rewrite Herr.
  unfold fresh. cbv beta iota zeta.
  eexists _, c, _. split; [reflexivity|]. split.
  { simpl. apply lookup_insert_eq. }
  split.
  { intros Hnone key. rewrite Hnone in Hc. injection Hc as <- <-.
    unfold cache_get, storage_of. simpl. by rewrite lookup_insert_eq. }
  intros this arguments_ w2.
  destruct (cache_get c (derive_key (cacheKey o) arguments_) w2) as [item|] eqn:Hget.
  { by apply call_hit. }
  rewrite call_miss by done.
  destruct (call function_ this arguments_ w2) as [[r|e] w3]; [|done].
  eexists. split; [reflexivity|].
  rewrite stored_then_found. split; [done|].
  match goal with |- context [schedule ?a ?b ?c ?d ?e] =>
    destruct (schedule_frame a b c d e) as (Hu & Hcalls & _) end.
  split; [by rewrite Hu|]. split; [by rewrite Hcalls|].
  intros this' arguments' Hk.
  by apply (repeat_call_hits _ _ _ _ _ _ _ _ _ _
    {| data := r; expiresAt := _ |}).
Qed.

(** C3. With [maxAge: 0], [memoize] hands back the original callable
    itself: no wrapper is registered, nothing is scheduled, and calling
    the returned function is calling the original, every time. *)
Theorem memoize_maxAge_zero_is_identity function_ ck (oc : option nat) w :
  let o := {| cacheKey := ck; cache := oc; maxAge := Some (NInt 0) |} in
  fst (memoize function_ o w) = Ok function_ ∧
  cacheStore (snd (memoize function_ o w)) = cacheStore w ∧
  cacheTimerStore (snd (memoize function_ o w)) = cacheTimerStore w ∧
  timers (snd (memoize function_ o w)) = timers w ∧
  calls (snd (memoize function_ o w)) = calls w ∧
  match fst (memoize function_ o w) with
  | Ok returned =>
      ∀ this arguments_ w', call returned this arguments_ w' = call function_ this arguments_ w'
  | TypeError _ => False
  end.
Proof.
  simpl. unfold memoize. simpl.
  destruct oc as [c|]; simpl; repeat split; done.
Qed.

(** C5. When the key misses and the original throws, the wrapper throws
    the same value; the storage, the timer table and the registries are
    exactly as before the call, so the key still misses and the next call
    with that key runs the original again: its outcome and the invocation
    trace are those of invoking the original directly. *)
Theorem original_failure_propagates id function_ ck (c : nat) ma this arguments_ w e w1 :
  let memoized := Memoized id function_ ck c ma in
  let key := derive_key ck arguments_ in
  cache_get c key w = None →
  call function_ this arguments_ w = (Throw e, w1) →
  call memoized this arguments_ w = (Throw e, w1) ∧
  caches w1 = caches w ∧ timers w1 = timers w ∧
  cacheTimerStore w1 = cacheTimerStore w ∧ cacheStore w1 = cacheStore w ∧
  cache_get c key w1 = None ∧
  ∀ this' arguments', derive_key ck arguments' = key →
    fst (call memoized this' arguments' w1) = fst (call function_ this' arguments' w1) ∧
    user (snd (call memoized this' arguments' w1)) = user (snd (call function_ this' arguments' w1)) ∧
    calls (snd (call memoized this' arguments' w1)) = calls (snd (call function_ this' arguments' w1)).
Proof.
  intros memoized key Hmiss Hthrow.
  destruct (call_throw_frame _ _ _ _ _ _ Hthrow) as (Hc & Ht & Hts & Hcs & _).
  assert (Hmiss1 : cache_get c key w1 = None).
  { unfold cache_get, storage_of in *. by rewrite Hc. }
  split. { unfold memoized. rewrite call_miss by done. by rewrite Hthrow. }
  repeat (split; [done|]).
  intros this' arguments' Hk. unfold memoized.
  rewrite call_miss by (by rewrite Hk).
  destruct (call function_ this' arguments' w1) as [[r|e'] w2]; [|done].
  simpl.
  match goal with |- context [schedule ?a ?b ?c ?d ?e] =>
    destruct (schedule_frame a b c d e) as (Hu & Hcalls & _) end.
  by rewrite Hu, Hcalls.
Qed.

(** C6. [memoizeClear] throws "not memoized" when [cacheStore] has no
    storage for the function's identity, and "can't be cleared" when the
    storage it has lacks [clear]; either way the world is returned exactly
    as it was. *)
Theorem memoizeClear_errors f w :
  match cacheStore w !! fid f with
  | None =>
      memoizeClear f w = (TypeError "Can't clear a function that was not memoized!", w)
  | Some c =>
      has_clear (storage_of c w) = false →
      memoizeClear f w = (TypeError "The cache Map can't be cleared!", w)
  end.
Proof.
  unfold memoizeClear. destruct (cacheStore w !! fid f) as [c|]; [|done].
  by intros ->.
Qed.

(** C7. A key present in the storage is a hit whatever the clock says: the
    lookup reads neither [Date.now()] nor the entry's expiry.  So an entry
    whose expiry instant lies in the past, and which no timer has deleted
    yet, is returned as it is, and the original is not run. *)
Theorem stale_entry_is_a_hit id function_ ck (c : nat) ma this arguments_ w cacheItem :
  let memoized := Memoized id function_ ck c ma in
  cache_get c (derive_key ck arguments_) w = Some cacheItem →
  call memoized this arguments_ w = (Return (data cacheItem), w) ∧
  ∀ dt, 0 ≤ dt →
    num_lt (expiresAt cacheItem) (NInt (now (advance dt w))) = true →
    cache_get c (derive_key ck arguments_) (advance dt w) = Some cacheItem ∧
    call memoized this arguments_ (advance dt w) = (Return (data cacheItem), advance dt w).
Proof.
  intros memoized Hget. split; [by apply call_hit|].
  intros dt _ _. split; [done|]. by apply call_hit.
Qed.

(** C10. A falsy result is cached like any other: after a miss on which the
    original returned a falsy value, every call deriving the same key gets
    that value back from the storage and the original is not run. *)
Theorem falsy_result_is_a_hit id function_ ck (c : nat) ma this arguments_ w r w1 :
  let memoized := Memoized id function_ ck c ma in
  let key := derive_key ck arguments_ in
  truthy r = false →
  cache_get c key w = None →
  call function_ this arguments_ w = (Return r, w1) →
  ∃ w2, call memoized this arguments_ w = (Return r, w2) ∧
        data <$> cache_get c key w2 = Some r ∧
        ∀ this' arguments', derive_key ck arguments' = key →
          call memoized this' arguments' w2 = (Return r, w2).
Proof.
  intros memoized key _ Hmiss Hret. unfold memoized.
  rewrite call_miss by done. rewrite Hret.
  eexists. split; [reflexivity|]. fold key.
  rewrite stored_then_found. split; [done|].
  intros this' arguments' Hk.
  by apply (repeat_call_hits _ _ _ _ _ _ _ _ _ _
    {| data := r; expiresAt := _ |}).
Qed.

(** ** The wrapper registry *)

(** C2 (amended). For a wrapper whose identity [cacheStore] maps to a
    clearable storage, [memoizeClear] succeeds, leaves that storage empty
    and calls [clearTimeout] on every handle recorded for that identity, so
    that none of them is pending in the host any more; other timers are
    untouched.  The recorded set itself is not pruned: [cacheTimerStore] is
    as it was.  The next call of the wrapper, at whatever instant, misses
    and therefore runs the original: its outcome and the invocation trace
    are those of invoking the original directly. *)
Theorem memoizeClear_empties_and_cancels id function_ ck (c : nat) ma w :
  let memoized := Memoized id function_ ck c ma in
  cacheStore w !! id = Some c →
  has_clear (storage_of c w) = true →
  ∃ w1, memoizeClear memoized w = (Ok (), w1) ∧
    entries (storage_of c w1) = ∅ ∧
    (∀ t, t ∈ recorded id w → timers w1 !! t = None) ∧
    (∀ t, t ∉ recorded id w → timers w1 !! t = timers w !! t) ∧
    cacheTimerStore w1 = cacheTimerStore w ∧
    cacheStore w1 = cacheStore w ∧
    ∀ dt this arguments_,
      let w2 := advance dt w1 in
      fst (call memoized this arguments_ w2) = fst (call function_ this arguments_ w2) ∧
      user (snd (call memoized this arguments_ w2)) = user (snd (call function_ this arguments_ w2)) ∧
      calls (snd (call memoized this arguments_ w2)) = calls (snd (call function_ this arguments_ w2)).
Proof.
  intros memoized Hstore Hclear. unfold memoizeClear. simpl fid.
  rewrite Hstore, Hclear.
  destruct (clear_all_timers (recorded id (cache_clear c w)) (cache_clear c w))
    as (m & Hfold & Hm).
  eexists. split; [reflexivity|]. rewrite Hfold.
  split. { unfold storage_of. simpl. by rewrite lookup_insert_eq. }
  split. { intros t Ht. simpl. rewrite Hm. by rewrite bool_decide_eq_true_2. }
  split. { intros t Ht. simpl. rewrite Hm. by rewrite bool_decide_eq_false_2. }
  split; [done|]. split; [done|].
  intros dt this arguments_. set (w2 := advance dt _). unfold memoized.
  rewrite call_miss.
  2:{ unfold cache_get, storage_of. simpl. by rewrite lookup_insert_eq. }
  destruct (call function_ this arguments_ w2) as [[r|e] w3]; [|done].
  simpl.
  match goal with |- context [schedule ?a ?b ?c ?d ?e] =>
    destruct (schedule_frame a b c d e) as (Hu & Hcalls & _) end.
  by rewrite Hu, Hcalls.
Qed.

(** A pending timer that is due can run; its key is then gone from its
    storage and the timer is no longer pending. *)
Lemma fire_evicts (t : nat) tm w :
  timers w !! t = Some tm →
  t_due tm ≤ now w →
  ∃ w', fire t w = Some w' ∧
        cache_get (t_cache tm) (t_key tm) w' = None ∧
        timers w' !! t = None.
Proof.
  intros Ht Hdue. unfold fire. rewrite Ht.
  rewrite bool_decide_eq_true_2 by done.
  eexists. split; [reflexivity|]. split.
  - unfold cache_get, cache_delete, storage_of. simpl.
    rewrite lookup_insert_eq. simpl. apply lookup_delete_eq.
  - simpl. apply lookup_delete_eq.
Qed.

(** ** The method adapter: getters *)

Lemma memoized_get_source originalMethod (table : nat) :
  Source.memoized_get (U:=U) originalMethod table
  = memoized_get_with (λ _, true) originalMethod table.
Proof. reflexivity. Qed.

Lemma memoized_get_distribution objects originalMethod (table : nat) :
  Distribution.memoized_get (U:=U) objects originalMethod table
  = memoized_get_with (λ r, extensible (objects r)) originalMethod table.
Proof. reflexivity. Qed.

Lemma memoized_get_other can_fix originalMethod (table this other : nat) w :
  other ≠ this →
  vslots (snd (memoized_get_with can_fix originalMethod table other w)) !! (table, this)
  = vslots w !! (table, this).
Proof.
  intros Hne. unfold memoized_get_with.
  destruct (vslots w !! (table, other)); [done|].
  pose proof (call_frame originalMethod (VRef other) [] w) as (_ & _ & Hv & _).
  destruct (call originalMethod (VRef other) [] w) as [[v|e] w1]; simpl in *;
    [|by rewrite Hv].
  destruct (can_fix other); simpl; [|by rewrite Hv].
  rewrite lookup_insert_ne by congruence. by rewrite Hv.
Qed.

Lemma memoized_get_fixed can_fix originalMethod (table this : nat) v w :
  vslots w !! (table, this) = Some v →
  memoized_get_with can_fix originalMethod table this w = (Return v, w).
Proof. intros H. unfold memoized_get_with. by rewrite H. Qed.

Lemma reads_keep_slot can_fix originalMethod (table this : nat) v receivers : ∀ w,
  vslots w !! (table, this) = Some v →
  vslots (reads (memoized_get_with can_fix originalMethod table) receivers w)
    !! (table, this) = Some v.
Proof.
  induction receivers as [|r rest IH]; intros w Hv; simpl; [done|].
  apply IH. destruct (decide (r = this)) as [->|Hne].
  - by rewrite (memoized_get_fixed _ _ _ _ _ _ Hv).
  - by rewrite memoized_get_other.
Qed.

Lemma reads_elsewhere can_fix originalMethod (table this : nat) receivers : ∀ w,
  this ∉ receivers →
  vslots (reads (memoized_get_with can_fix originalMethod table) receivers w)
    !! (table, this) = vslots w !! (table, this).
Proof.
  induction receivers as [|r rest IH]; intros w Hnot; simpl; [done|].
  apply not_elem_of_cons in Hnot as [Hne Hnot].
  rewrite IH by done. by apply memoized_get_other.
Qed.

(** C8 (amended). What a read of the decorated getter does, in either
    build.  On a receiver whose slot is empty it runs the getter body on
    that receiver; when the body returns, the value is fixed in the slot
    and returned (in the distributed build on an extensible receiver; on
    another the read throws and fixes nothing); when the body throws, the
    read throws the same and fixes nothing.  Once a value is fixed, through
    any further reads on any receivers the slot keeps it and a read on the
    receiver returns it with the world untouched: the body is not run
    again.  A read on one receiver leaves the slot of every other receiver
    alone, so with a new decorator the first read on a receiver finds its
    slot empty whatever was read on others.  The closure installed for a
    getter does not hold the options. *)
Theorem getter_computed_once_per_receiver originalMethod (table : nat) objects get can_fix :
  (get = Source.memoized_get (U:=U) originalMethod table ∧ can_fix = (λ _, true)) ∨
  (get = Distribution.memoized_get (U:=U) objects originalMethod table ∧
   can_fix = (λ r, extensible (objects r))) →
  (∀ (this : nat) w, vslots w !! (table, this) = None →
     get this w =
     match call originalMethod (VRef this) [] w with
     | (Return v, w1) =>
         if can_fix this
         then (Return v, set_vslots (<[(table, this) := v]> (vslots w1)) w1)
         else (Throw (VTypeError cannot_define), w1)
     | (Throw e, w1) => (Throw e, w1)
     end) ∧
  (∀ (this : nat) v w, vslots w !! (table, this) = Some v →
     ∀ receivers,
       let w' := reads get receivers w in
       vslots w' !! (table, this) = Some v ∧ get this w' = (Return v, w')) ∧
  (∀ (this other : nat) w, other ≠ this →
     vslots (snd (get other w)) !! (table, this) = vslots w !! (table, this)) ∧
  (∀ w0 receivers (this : nat),
     (∀ r, vslots w0 !! (table, r) = None) →
     this ∉ receivers →
     vslots (reads get receivers w0) !! (table, this) = None) ∧
  (∀ o w,
     Source.decorator_apply (fst (Source.memoizeDecorator o w))
       {| d_value := PValue VUndefined; d_get := PFunction originalMethod |}
     = Ok (DGetter originalMethod (S (next_id w))) ∧
     Distribution.decorator_apply (Distribution.memoizeDecorator o)
       {| d_value := PValue VUndefined; d_get := PFunction originalMethod |} w
     = (Ok (DGetter originalMethod (next_id w)), set_next_id (S (next_id w)) w)).
Proof.
  intros Hget.
  assert (get = memoized_get_with can_fix originalMethod table) as ->.
  { destruct Hget as [[-> ->]|[-> ->]]; reflexivity. }
  clear Hget. split.
  { intros this w Hnone. unfold memoized_get_with. by rewrite Hnone. }
  split.
  { intros this v w Hv receivers w'.
    assert (vslots w' !! (table, this) = Some v) as Hv'
      by by apply reads_keep_slot.
    split; [done | by apply memoized_get_fixed]. }
  split; [intros; by apply memoized_get_other|].
  split.
  { intros w0 receivers this Hempty Hnot. rewrite reads_elsewhere by done.
    apply Hempty. }
  intros o w. split; reflexivity.
Qed.

(** ** The method adapter: methods *)


Lemma get_property_None {A : Type} (slots : gmap (nat * nat) A) (key : nat) chain :
  get_property slots key chain = None ↔ ∀ x, x ∈ chain → slots !! (key, x) = None.
Proof.
  induction chain as [|y rest IH]; simpl.
  - split; [intros _ x Hx; by apply elem_of_nil in Hx | done].
  - destruct (slots !! (key, y)) eqn:Hy.
    + split; [done|]. intros H. specialize (H y (list_elem_of_here _ _)). congruence.
    + rewrite IH. split.
      * intros H x [->|Hx]%elem_of_cons; [done | by apply H].
      * intros H x Hx. apply H. by apply list_elem_of_further.
Qed.

(** On an extensible receiver none of whose prototypes holds the slot, the
    distributed build's method is the one that looks at the receiver
    only. *)
Lemma memoized_value_distribution objects originalMethod o (table this : nat)
    (arguments_ : list value) w :
  extensible (objects this) = true →
  (∀ p, p ∈ prototypes (objects this) → fslots w !! (table, p) = None) →
  Distribution.memoized_value objects originalMethod o table this arguments_ w
  = memoized_value_with VRef originalMethod o table this arguments_ w.
Proof.
  intros Hext Hprotos. unfold Distribution.memoized_value, memoized_value_with.
  cbn [get_property].
  destruct (fslots w !! (table, this)) as [f|]; [done|].
  rewrite (proj2 (get_property_None _ _ _) Hprotos). by rewrite Hext.
Qed.

(** An invocation on a receiver adds a slot for that receiver at most. *)
Lemma invocation_slots pass originalMethod o (table this x : nat) (arguments_ : list value) w :
  x ≠ this →
  fslots (snd (memoized_value_with pass originalMethod o table this arguments_ w))
    !! (table, x) = fslots w !! (table, x).
Proof.
  intros Hne. unfold memoized_value_with.
  destruct (fslots w !! (table, this)) as [f|].
  { by destruct (call_frame f (pass this) arguments_ w) as (_ & -> & _). }
  assert (Hfs : fslots (snd (memoize (fst (bind originalMethod (VRef this) w)) o
                               (snd (bind originalMethod (VRef this) w)))) = fslots w).
  { unfold bind, memoize, alloc_Map, fresh. simpl.
    destruct (cache o); simpl; destruct (is_zero (maxAge o)); simpl;
      try destruct (maxAge_error (maxAge o)); done. }
  destruct (bind originalMethod (VRef this) w) as [bound w1]. simpl in Hfs.
  destruct (memoize bound o w1) as [[f|message] w2]; simpl in Hfs;
    [|simpl; by rewrite Hfs].
  match goal with |- context [call f (pass this) arguments_ ?w3] =>
    destruct (call_frame f (pass this) arguments_ w3) as (_ & -> & _) end.
  simpl. rewrite lookup_insert_ne by congruence. by rewrite Hfs.
Qed.

(** Over receivers kept apart, a history of invocations of the distributed
    build is a history of the method that looks at the receiver only. *)
Lemma distribution_history objects originalMethod o (table : nat) ids history : ∀ w0,
  unrelated objects ids →
  (∀ x, is_Some (fslots w0 !! (table, x)) → x ∈ ids) →
  (∀ r a, (r, a) ∈ history → r ∈ ids) →
  invocations (Distribution.memoized_value objects originalMethod o table) history w0
    = invocations (memoized_value_with (U:=U) VRef originalMethod o table) history w0 ∧
  (∀ x, is_Some (fslots (invocations (memoized_value_with VRef originalMethod o table)
                           history w0) !! (table, x)) → x ∈ ids).
Proof.
  induction history as [|[r a] rest IH]; intros w0 Hun Hslots Hhist; simpl; [done|].
  assert (Hr : r ∈ ids) by (eapply Hhist; apply list_elem_of_here).
  destruct (Hun r Hr) as [Hext Hprotos].
  rewrite memoized_value_distribution; [|done|].
  2:{ intros p Hp. destruct (fslots w0 !! (table, p)) eqn:E; [|done].
      destruct (Hprotos p Hp). apply Hslots. by rewrite E. }
  apply IH; [done| |].
  - intros x Hx. destruct (decide (x = r)) as [->|Hne]; [done|].
    rewrite invocation_slots in Hx by done. by apply Hslots.
  - intros r' a' Hin. eapply Hhist. by apply list_elem_of_further.
Qed.












(** ** Configuration errors *)

Lemma out_of_range_error m :
  num_lt m (NInt 0) = true ∨ num_gt m (NInt maxSetIntervalValue) = true →
  is_zero (Some m) = false ∧ ∃ message, maxAge_error (Some m) = Some message.
Proof.
  intros Hbad. split.
  - unfold is_zero. apply bool_decide_eq_false. intros [= ->].
    destruct Hbad as [H|H]; vm_compute in H; discriminate.
  - unfold maxAge_error.
    destruct (num_gt m (NInt maxSetIntervalValue)) eqn:Hgt; [by eexists|].
    destruct Hbad as [->|?]; [by eexists | discriminate].
Qed.

(** C4 (amended). A [maxAge] that is negative or above 2147483647 makes
    [memoize] throw before it creates anything: no wrapper is registered,
    no timer exists, and the only trace in the heap is the unreachable
    default [Map] when no [cache] was given.  [memoizeDecorator] does not
    look at the options: creating the decorator and applying it to a method
    or a getter succeeds.  The decorated method then throws that error on
    an invocation on a receiver it finds nothing for (in the distributed
    build: on the receiver and its prototypes), without running the method
    and without remembering anything for the receiver.  So with a new
    decorator nothing is ever remembered: after any invocations, on any
    receivers, the next invocation throws that error and the method has
    not run. *)
Theorem maxAge_out_of_range_rejected function_ o m w :
  maxAge o = Some m →
  num_lt m (NInt 0) = true ∨ num_gt m (NInt maxSetIntervalValue) = true →
  (∃ message,
     maxAge_error (maxAge o) = Some message ∧
     fst (memoize function_ o w) = TypeError message ∧
     let w1 := snd (memoize function_ o w) in
     cacheStore w1 = cacheStore w ∧ cacheTimerStore w1 = cacheTimerStore w ∧
     timers w1 = timers w ∧ fslots w1 = fslots w ∧ vslots w1 = vslots w ∧
     calls w1 = calls w ∧ user w1 = user w ∧
     (is_Some (cache o) → w1 = w) ∧
     (∀ c, c ≠ next_id w → caches w1 !! c = caches w !! c)) ∧
  (Source.decorator_apply (fst (Source.memoizeDecorator o w))
     {| d_value := PFunction function_; d_get := PValue VUndefined |}
   = Ok (DMethod function_ o (next_id w)) ∧
   Source.decorator_apply (fst (Source.memoizeDecorator o w))
     {| d_value := PValue VUndefined; d_get := PFunction function_ |}
   = Ok (DGetter function_ (S (next_id w))) ∧
   fst (Distribution.decorator_apply (Distribution.memoizeDecorator o)
          {| d_value := PFunction function_; d_get := PValue VUndefined |} w)
   = Ok (DMethod function_ o (next_id w)) ∧
   fst (Distribution.decorator_apply (Distribution.memoizeDecorator o)
          {| d_value := PValue VUndefined; d_get := PFunction function_ |} w)
   = Ok (DGetter function_ (next_id w))) ∧
  (∀ objects method found (table : nat),
     (method = Source.memoized_value function_ o table ∧
      found = (λ (this : nat) w', fslots w' !! (table, this))) ∨
     (method = Distribution.memoized_value objects function_ o table ∧
      found = (λ (this : nat) w',
                 get_property (fslots w') table (this :: prototypes (objects this)))) →
     ∀ (this : nat) (arguments_ : list value) w',
       found this w' = None →
       ∃ message,
         maxAge_error (maxAge o) = Some message ∧
         fst (method this arguments_ w') = Throw (VTypeError message) ∧
         fslots (snd (method this arguments_ w')) = fslots w' ∧
         cacheStore (snd (method this arguments_ w')) = cacheStore w' ∧
         calls (snd (method this arguments_ w')) = calls w') ∧
  (∀ objects method (table : nat),
     method = Source.memoized_value function_ o table ∨
     method = Distribution.memoized_value objects function_ o table →
     ∀ w0 history (this : nat) (arguments_ : list value),
       (∀ r, fslots w0 !! (table, r) = None) →
       let w' := invocations method history w0 in
       (∀ r, fslots w' !! (table, r) = None) ∧
       calls w' = calls w0 ∧
       ∃ message,
         maxAge_error (maxAge o) = Some message ∧
         fst (method this arguments_ w') = Throw (VTypeError message)).
Proof.
  intros Hm Hbad.
  destruct (out_of_range_error m Hbad) as (Hz & message & Herr).
  rewrite <- Hm in Hz, Herr.
  assert (Hthrow : ∀ objects method (table : nat),
    method = Source.memoized_value function_ o table ∨
    method = Distribution.memoized_value objects function_ o table →
    ∀ (this : nat) (arguments_ : list value) w',
      (∀ r, fslots w' !! (table, r) = None) →
      fst (method this arguments_ w') = Throw (VTypeError message) ∧
      fslots (snd (method this arguments_ w')) = fslots w' ∧
      calls (snd (method this arguments_ w')) = calls w').
  { intros objects method table [->| ->] this arguments_ w' Hempty.
    - unfold Source.memoized_value. rewrite Hempty.
      unfold bind, memoize. rewrite Hz, Herr.
      destruct (cache o) as [c|]; simpl; done.
    - unfold Distribution.memoized_value.
      rewrite (proj2 (get_property_None _ _ _)) by (intros; apply Hempty).
      unfold bind, memoize. rewrite Hz, Herr.
      destruct (cache o) as [c|]; simpl; done. }
  split; [|split; [|split]].
  - exists message. split; [done|]. unfold memoize. rewrite Hz, Herr.
    destruct (cache o) as [c|]; simpl.
    + repeat split; try done.
    + repeat split; try done.
      intros c Hc. by rewrite lookup_insert_ne.
  - repeat split; reflexivity.
  - intros objects method found table Hmethod this arguments_ w' Hslot.
    exists message. split; [done|].
    destruct Hmethod as [[-> ->]|[-> ->]].
    + unfold Source.memoized_value. rewrite Hslot.
      unfold bind, memoize. rewrite Hz, Herr.
      destruct (cache o) as [c|]; simpl; done.
    + unfold Distribution.memoized_value. rewrite Hslot.
      unfold bind, memoize. rewrite Hz, Herr.
      destruct (cache o) as [c|]; simpl; done.
  - intros objects method table Hmethod w0 history this arguments_.
    revert w0. induction history as [|[r a] rest IH]; intros w0 Hempty; simpl.
    + split; [done|]. split; [done|]. exists message. split; [done|].
      by apply (Hthrow objects method table Hmethod).
    + destruct (Hthrow objects method table Hmethod r a w0 Hempty) as (_ & Hfs & Hcalls).
      destruct (IH (snd (method r a w0))) as (H1 & H2 & H3).
      { intros x. rewrite Hfs. apply Hempty. }
      split; [done|]. split; [by rewrite H2|done].
Qed.

End Properties.

(** * Further properties of the engine *)

Section Further.

Context {U : Type}.

Implicit Types (w : @world U) (f fn : @func U) (o : Options).

(** ** What one call does *)

(** A call runs the user callable at the end of the chain at most once,
    with the arguments it was given and the receiver the chain determines;
    when it does not run it, the user's state is untouched. *)
Theorem call_runs_original_at_most_once f : ∀ (this : value) (arguments_ : list value) w,
  let w' := snd (call f this arguments_ w) in
  (calls w' = calls w ∧ user w' = user w) ∨
  calls w' = calls w ++ [{| i_fn := fst (target_of f this);
                            i_this := snd (target_of f this);
                            i_args := arguments_ |}].
Proof.
  induction f as [id code | id target IH bt | id fn IH ck c ma];
    intros this arguments_ w; simpl.
  - destruct (code this arguments_ (user w)) as [r u]. simpl. by right.
  - apply IH.
  - destruct (cache_get c (derive_key ck arguments_) w) as [item|]; simpl.
    { by left. }
    specialize (IH this arguments_ w).
    destruct (call fn this arguments_ w) as [[r|e] w1]; simpl in *; [|exact IH].
    match goal with |- context [schedule ?a ?b ?c ?d ?e] =>
      destruct (schedule_frame a b c d e) as (Hu & Hc & _) end.
    rewrite Hu, Hc. exact IH.
Qed.

(** A call never overwrites or removes an entry that is in a storage when
    the call starts: every lookup of the chain happens before any write,
    and a write only follows a miss on its own key. *)
Theorem call_keeps_entries f : ∀ (this : value) (arguments_ : list value) w
    (c : nat) (key : value) item,
  cache_get c key w = Some item →
  cache_get c key (snd (call f this arguments_ w)) = Some item.
Proof.
  induction f as [id code | id target IH bt | id fn IH ck c0 ma];
    intros this arguments_ w c key item Hget; simpl.
  - by destruct (code this arguments_ (user w)) as [r u].
  - by apply IH.
  - destruct (cache_get c0 (derive_key ck arguments_) w) as [item0|] eqn:Hmiss; [done|].
    specialize (IH this arguments_ w c key item Hget).
    destruct (call fn this arguments_ w) as [[r|e] w1]; simpl in *; [|exact IH].
    rewrite cache_get_schedule. rewrite cache_get_set_ne; [exact IH|].
    intros [= -> Hk]. rewrite Hk in Hmiss. congruence.
Qed.

(** Two wrappers configured with the same storage share its entries: what
    one of them stored on a miss, the other returns for any call deriving
    the same key, without running its own original. *)
Theorem wrappers_share_storage id1 id2 fn1 fn2 ck1 ck2 (c : nat) ma1 ma2
    (this1 this2 : value) (arguments1 arguments2 : list value) w r w1 :
  cache_get c (derive_key ck1 arguments1) w = None →
  call fn1 this1 arguments1 w = (Return r, w1) →
  derive_key ck2 arguments2 = derive_key ck1 arguments1 →
  let w' := snd (call (Memoized id1 fn1 ck1 c ma1) this1 arguments1 w) in
  call (Memoized id2 fn2 ck2 c ma2) this2 arguments2 w' = (Return r, w').
Proof.
  intros Hmiss Hret Hk w'. subst w'.
  rewrite (call_miss id1 fn1 ck1 c ma1 this1 arguments1 w Hmiss), Hret.
  cbn [snd].
  by apply (repeat_call_hits _ _ _ _ _ _ _ _ _ _ {| data := r; expiresAt := _ |}).
Qed.

(** ** Eviction timers *)

(** What a miss leaves behind, beyond the result: the entry, stamped with
    [Date.now() + maxAge], and, when [maxAge] is a number, one new timer
    for this storage and key, recorded under the identity of the original
    and of nothing else.  Without [maxAge] nothing is scheduled and nothing
    allocated.  For a delay the host honours, the timer is due at the
    instant stamped on the entry; with [NaN], which [memoize] accepts, the
    entry is stamped as never expiring and the timer is due one
    millisecond later. *)
Theorem miss_schedules_eviction id function_ ck (c : nat) ma
    (this : value) (arguments_ : list value) w r w1 :
  let key := derive_key ck arguments_ in
  ma ≠ Some NPosInf →
  cache_get c key w = None →
  call function_ this arguments_ w = (Return r, w1) →
  let w' := snd (call (Memoized id function_ ck c ma) this arguments_ w) in
  let t := next_id w1 in
  cache_get c key w' = Some {| data := r; expiresAt := expiry ma (now w1) |} ∧
  match ma with
  | None =>
      timers w' = timers w1 ∧ cacheTimerStore w' = cacheTimerStore w1 ∧
      next_id w' = next_id w1 ∧ expiry ma (now w1) = NPosInf
  | Some m =>
      timers w' = <[t := {| t_cache := c; t_key := key;
                            t_due := now w1 + timer_delay m |}]> (timers w1) ∧
      recorded (fid function_) w' = recorded (fid function_) w1 ∪ {[t]} ∧
      (∀ h, h ≠ fid function_ → recorded h w' = recorded h w1) ∧
      next_id w' = S (next_id w1) ∧
      (∀ z, m = NInt z → 1 ≤ z ≤ maxSetIntervalValue →
         expiry ma (now w1) = NInt (now w1 + timer_delay m)) ∧
      (m = NNaN → expiry ma (now w1) = NPosInf ∧ timer_delay m = 1)
  end.
Proof.
  intros key Hinf Hmiss Hret w' t. subst w'.
  rewrite (call_miss id function_ ck c ma this arguments_ w Hmiss), Hret.
  cbn [snd]. fold key. split; [apply stored_then_found|].
  destruct ma as [m|]; [|done].
  unfold schedule. rewrite bool_decide_eq_false_2 by congruence.
  unfold register_timer, setTimeout, fresh, recorded. simpl.
  split; [done|]. split; [by rewrite lookup_insert_eq|]. split.
  { intros h Hne. by rewrite lookup_insert_ne. }
  split; [done|]. split.
  - intros z -> Hz. simpl.
    rewrite (bool_decide_eq_false_2 (z = 0)) by lia.
    by rewrite (bool_decide_eq_true_2 (1 ≤ z ≤ maxSetIntervalValue)).
  - by intros ->.
Qed.

(** The life of an entry under [maxAge: z].  The timer created by the miss
    cannot run before [z] milliseconds have passed; from then on it can,
    and when it runs the key is gone from the storage, so that the next
    call of the wrapper runs the original again. *)
Theorem entry_evicted_when_timer_runs id function_ ck (c : nat) (z : Z)
    (this : value) (arguments_ : list value) w r w1 :
  let key := derive_key ck arguments_ in
  let memoized := Memoized id function_ ck c (Some (NInt z)) in
  1 ≤ z ≤ maxSetIntervalValue →
  cache_get c key w = None →
  call function_ this arguments_ w = (Return r, w1) →
  let w' := snd (call memoized this arguments_ w) in
  let t := next_id w1 in
  (∀ dt, dt < z → fire t (advance dt w') = None) ∧
  (∀ dt, z ≤ dt →
     ∃ w'', fire t (advance dt w') = Some w'' ∧
            cache_get c key w'' = None ∧
            timers w'' !! t = None ∧
            fst (call memoized this arguments_ w'') = fst (call function_ this arguments_ w'') ∧
            calls (snd (call memoized this arguments_ w''))
              = calls (snd (call function_ this arguments_ w''))).
Proof.
  intros key memoized Hz Hmiss Hret w' t.
  assert (timers w' !! t
            = Some {| t_cache := c; t_key := key; t_due := now w1 + z |} ∧
          now w' = now w1) as [Ht Hnow].
  { subst w'. unfold memoized.
    rewrite (call_miss id function_ ck c _ this arguments_ w Hmiss), Hret.
    cbn [snd]. unfold schedule. rewrite bool_decide_eq_false_2 by done.
    unfold register_timer, setTimeout, fresh. simpl.
    rewrite lookup_insert_eq. by rewrite bool_decide_eq_true_2. }
  split.
  - intros dt Hdt. unfold fire. simpl. rewrite Ht. simpl.
    rewrite bool_decide_eq_false_2; [done | lia].
  - intros dt Hdt.
    destruct (fire_evicts t _ (advance dt w') Ht) as (w'' & Hfire & Hgone & Htimer).
    { simpl. lia. }
    exists w''. split; [done|]. split; [done|]. split; [done|].
    simpl in Hgone. unfold memoized.
    rewrite (call_miss id function_ ck c _ this arguments_ w'' Hgone).
    destruct (call function_ this arguments_ w'') as [[r'|e'] w3]; [|done].
    cbn [fst snd].
    match goal with |- context [schedule ?a ?b ?c ?d ?e] =>
      destruct (schedule_frame a b c d e) as (_ & Hc & _) end.
    by rewrite Hc.
Qed.

(** A timer that runs deletes its own key from its own storage and
    nothing else: every other key, every other storage, the registries,
    the other timers and the user's state are as before.  When its key is
    already gone, the storage is unchanged too. *)
Theorem fire_touches_one_key (t : nat) tm w w' :
  timers w !! t = Some tm →
  fire t w = Some w' →
  t_due tm ≤ now w ∧
  cache_get (t_cache tm) (t_key tm) w' = None ∧
  (∀ (c : nat) (key : value), (c, key) ≠ (t_cache tm, t_key tm) →
     cache_get c key w' = cache_get c key w) ∧
  (cache_get (t_cache tm) (t_key tm) w = None →
     ∀ c, entries (storage_of c w') = entries (storage_of c w)) ∧
  timers w' = delete t (timers w) ∧
  cacheStore w' = cacheStore w ∧ cacheTimerStore w' = cacheTimerStore w ∧
  user w' = user w ∧ calls w' = calls w.
Proof.
  intros Ht. unfold fire. rewrite Ht. case_bool_decide as Hdue; [|done].
  intros [= <-]. split; [done|].
  unfold cache_get, cache_delete, storage_of. simpl.
  split; [rewrite lookup_insert_eq; simpl; apply lookup_delete_eq|].
  split.
  { intros c key Hne. destruct (decide (c = t_cache tm)) as [->|Hc].
    - rewrite lookup_insert_eq. simpl. rewrite lookup_delete_ne; [done|congruence].
    - by rewrite lookup_insert_ne. }
  split; [|done].
  intros Hgone c. destruct (decide (c = t_cache tm)) as [->|Hc].
  - rewrite lookup_insert_eq. simpl. by apply delete_id.
  - by rewrite lookup_insert_ne.
Qed.

(** ** What the library never does *)

Lemma extends_refl w : extends w w.
Proof. unfold extends. repeat split; auto. Qed.

Lemma extends_trans w1 w2 w3 : extends w1 w2 → extends w2 w3 → extends w1 w3.
Proof.
  intros (Hn & Hr & Hs & Ht) (Hn' & Hr' & Hs' & Ht'). unfold extends.
  split; [lia|]. split; [intros h; etrans; [apply Hr | apply Hr']|].
  split.
  - intros i Hi. rewrite Hs' by lia. by apply Hs.
  - intros t Hlt Hnone. apply Ht'; [lia|]. by apply Ht.
Qed.

(** A call only adds: timers under new handles, handles to recorded
    sets. *)
Lemma call_extends f : ∀ (this : value) (arguments_ : list value) w,
  extends w (snd (call f this arguments_ w)).
Proof.
  induction f as [id code | id target IH bt | id fn IH ck c ma];
    intros this arguments_ w; simpl.
  - destruct (code this arguments_ (user w)) as [r u]. simpl.
    unfold extends, recorded. simpl. repeat split; auto.
  - apply IH.
  - destruct (cache_get c (derive_key ck arguments_) w) as [item|];
      [apply extends_refl|].
    specialize (IH this arguments_ w).
    destruct (call fn this arguments_ w) as [[r|e] w1]; simpl in *; [|exact IH].
    eapply extends_trans; [exact IH|].
    unfold schedule. destruct ma as [m|]; [|unfold extends, recorded; simpl; repeat split; auto].
    case_bool_decide; [unfold extends, recorded; simpl; repeat split; auto|].
    unfold register_timer, setTimeout, fresh, extends, recorded. simpl.
    split; [lia|]. split.
    { intros h. destruct (decide (h = fid fn)) as [->|Hne].
      - rewrite lookup_insert_eq. simpl. apply union_subseteq_l.
      - by rewrite lookup_insert_ne. }
    split; [done|].
    intros t Hlt Hnone. rewrite lookup_insert_ne by lia. done.
Qed.

Lemma step_extends x w : extends w (step x w).
Proof.
  destruct x as [f this arguments_ | f o | f | t | dt]; simpl.
  - apply call_extends.
  - unfold memoize, alloc_Map, fresh.
    destruct (cache o) as [c|]; simpl;
      destruct (is_zero (maxAge o)); simpl;
      try destruct (maxAge_error (maxAge o)); simpl;
      unfold extends, recorded; simpl; repeat split; auto; try lia;
      intros i Hi; rewrite lookup_insert_ne by lia; done.
  - unfold memoizeClear.
    destruct (cacheStore w !! fid f) as [c|]; [|apply extends_refl].
    destruct (has_clear (storage_of c w)); [|apply extends_refl].
    destruct (clear_all_timers (recorded (fid f) (cache_clear c w)) (cache_clear c w))
      as (m & -> & Hm).
    unfold extends, recorded. simpl. repeat split; auto.
    intros t _ Hnone. rewrite Hm. simpl. rewrite Hnone. by case_bool_decide.
  - unfold fire. destruct (timers w !! t) as [tm|]; [|apply extends_refl].
    case_bool_decide; [|apply extends_refl].
    unfold extends, recorded. simpl. repeat split; auto.
    intros t' _ Hnone. destruct (decide (t' = t)) as [->|Hne].
    + apply lookup_delete_eq.
    + by rewrite lookup_delete_ne.
  - unfold extends, recorded. simpl. repeat split; auto.
Qed.

(** Through any program of calls, [memoize], [memoizeClear], timers running
    and time passing: no handle ever leaves a set of [cacheTimerStore],
    an association of [cacheStore] is never removed or redirected, and a
    timer that was cancelled or has run never becomes pending again. *)
Theorem library_never_forgets program : ∀ w,
  let w' := run program w in
  (next_id w ≤ next_id w')%nat ∧
  (∀ h, recorded h w ⊆ recorded h w') ∧
  (∀ i, (i < next_id w)%nat → cacheStore w' !! i = cacheStore w !! i) ∧
  (∀ t, (t < next_id w)%nat → timers w !! t = None → timers w' !! t = None).
Proof.
  induction program as [|x rest IH]; intros w; simpl.
  - apply extends_refl.
  - eapply extends_trans; [apply step_extends | apply IH].
Qed.

(** ** memoizeClear and memoize together *)

(** A successful [memoizeClear] only empties the one storage and cancels
    timers: every other storage, both registries, the allocator, the
    user's state and the trace are as before, and no timer appears.
    Clearing again right away succeeds and changes nothing. *)
Theorem memoizeClear_idempotent fn w w1 (c : nat) :
  cacheStore w !! fid fn = Some c →
  memoizeClear fn w = (Ok (), w1) →
  memoizeClear fn w1 = (Ok (), w1) ∧
  (∀ c', c' ≠ c → caches w1 !! c' = caches w !! c') ∧
  has_clear (storage_of c w1) = has_clear (storage_of c w) ∧
  (∀ t tm, timers w1 !! t = Some tm → timers w !! t = Some tm) ∧
  cacheStore w1 = cacheStore w ∧ cacheTimerStore w1 = cacheTimerStore w ∧
  next_id w1 = next_id w ∧ now w1 = now w ∧
  user w1 = user w ∧ calls w1 = calls w.
Proof.
  intros Hstore Hok.
  assert (∃ m, w1 = set_timers m (cache_clear c w) ∧
               has_clear (storage_of c w) = true ∧
               ∀ t, m !! t = if bool_decide (t ∈ recorded (fid fn) (cache_clear c w))
                             then None else timers w !! t)
    as (m & -> & Hclear & Hm).
  { unfold memoizeClear in Hok. rewrite Hstore in Hok.
    destruct (has_clear (storage_of c w)); [|done].
    destruct (clear_all_timers (recorded (fid fn) (cache_clear c w)) (cache_clear c w))
      as (m & Hfold & Hm).
    rewrite Hfold in Hok. injection Hok as <-. by exists m. }
  clear Hok.
  set (w1 := set_timers m (cache_clear c w)).
  assert (Hs : storage_of c w1 = {| entries := ∅; has_clear := true |}).
  { unfold storage_of at 1. unfold w1. simpl. rewrite lookup_insert_eq. simpl.
    by rewrite Hclear. }
  split.
  - unfold memoizeClear.
    replace (cacheStore w1 !! fid fn) with (Some c) by (by rewrite <- Hstore).
    rewrite Hs. cbn [has_clear].
    destruct (clear_all_timers (recorded (fid fn) (cache_clear c w1)) (cache_clear c w1))
      as (m2 & -> & Hm2).
    f_equal.
    assert (m2 = m) as ->.
    { apply map_eq. intros t. rewrite Hm2.
      case_bool_decide as Hin; [|done].
      rewrite Hm. by rewrite bool_decide_eq_true_2. }
    unfold set_timers, cache_clear, set_caches. rewrite Hs.
    unfold w1. simpl. rewrite insert_insert_eq.
    unfold set_timers, cache_clear, set_caches. simpl. by rewrite Hclear.
  - split. { intros c' Hne. unfold w1. simpl. by rewrite lookup_insert_ne. }
    split; [by rewrite Hs|]. split; [|done].
    intros t tm. unfold w1. simpl. rewrite Hm. by case_bool_decide.
Qed.

(** [memoizeClear] wants the function [memoize] returned, not the one it
    was given: for an original that is not itself a registered wrapper,
    [memoizeClear(original)] still throws after [memoize(original)].  With
    [maxAge: 0] what [memoize] returns is that original, so it cannot be
    cleared either.  A wrapper created over the default storage can be
    cleared at once. *)
Theorem memoizeClear_needs_the_wrapper function_ o w :
  cacheStore w !! fid function_ = None →
  (fid function_ < next_id w)%nat →
  let w1 := snd (memoize function_ o w) in
  memoizeClear function_ w1
    = (TypeError "Can't clear a function that was not memoized!", w1) ∧
  (maxAge o = Some (NInt 0) → fst (memoize function_ o w) = Ok function_) ∧
  (maxAge o ≠ Some (NInt 0) → maxAge_error (maxAge o) = None → cache o = None →
     ∃ memoized w2, fst (memoize function_ o w) = Ok memoized ∧
                    fid memoized ≠ fid function_ ∧
                    memoizeClear memoized w1 = (Ok (), w2)).
Proof.
  intros Hnone Hlt w1. subst w1. unfold memoize, alloc_Map, fresh, is_zero.
  split; [|split].
  - unfold memoizeClear.
    destruct (cache o) as [c|]; simpl;
      case_bool_decide; simpl;
      try destruct (maxAge_error (maxAge o)); simpl;
      rewrite ?lookup_insert_ne by lia; by rewrite Hnone.
  - intros ->. by destruct (cache o).
  - intros Hz Hvalid Hcache. rewrite Hcache, Hvalid.
    rewrite bool_decide_eq_false_2 by done. simpl.
    eexists _, _. split; [reflexivity|]. split; [simpl; lia|].
    unfold memoizeClear. simpl. rewrite lookup_insert_eq.
    unfold storage_of. simpl. rewrite lookup_insert_eq. simpl. reflexivity.
Qed.

(** Among the options whose [maxAge] is absent, [NaN], an infinity or a
    whole number, [memoize] returns a function for these: [maxAge] absent,
    [NaN], or a whole number from 0 to 2147483647, and throws for the
    others; [Infinity], the documented default, is rejected when given
    explicitly.  Above the range the error is the "cannot exceed" one,
    below it the "negative" one. *)
Theorem memoize_accepts_iff function_ o w :
  ((∃ f, fst (memoize function_ o w) = Ok f) ↔
   match maxAge o with
   | None | Some NNaN => True
   | Some (NInt z) => 0 ≤ z ≤ maxSetIntervalValue
   | Some NPosInf | Some NNegInf => False
   end) ∧
  match maxAge o with
  | Some NPosInf =>
      fst (memoize function_ o w) = TypeError "The `maxAge` option cannot exceed 2147483647."
  | Some NNegInf =>
      fst (memoize function_ o w)
        = TypeError "The `maxAge` option should not be a negative number."
  | Some (NInt z) =>
      (maxSetIntervalValue < z →
       fst (memoize function_ o w) = TypeError "The `maxAge` option cannot exceed 2147483647.") ∧
      (z < 0 →
       fst (memoize function_ o w)
         = TypeError "The `maxAge` option should not be a negative number.")
  | _ => True
  end.
Proof.
  unfold memoize, is_zero, maxAge_error, num_lt, num_gt, maxSetIntervalValue.
  destruct (match cache o with Some c => (c, w) | None => alloc_Map w end) as [c w0].
  destruct (maxAge o) as [[z| | |]|]; simpl.
  - case_bool_decide as Hz0.
    { injection Hz0 as ->. simpl. split; [split; [intros; lia | by eexists]|].
      split; lia. }
    case_bool_decide as Hgt; simpl.
    { split; [split; [by intros [? [=]] | lia]|]. split; [done | lia]. }
    case_bool_decide as Hlt; simpl.
    { split; [split; [by intros [? [=]] | lia]|]. split; [lia | done]. }
    split; [split; [lia | by eexists]|]. split; lia.
  - split; [|done]. split; [done | by eexists].
  - split; [|done]. split; [by intros [? [=]] | done].
  - split; [|done]. split; [by intros [? [=]] | done].
  - split; [|done]. split; [done | by eexists].
Qed.

(** ** The method adapter, continued *)

(** A property descriptor as the language hands it to a decorator: a data
    descriptor, whose [get] is absent, or an accessor descriptor, whose
    [value] is absent and whose [get] is a function or absent.  On these
    the two builds decide alike: both throw the same error when there is
    no function to decorate, both install a getter closure around [get]
    for an accessor and a method closure around [value] for a method, the
    latter carrying the decorator's options. *)
Theorem builds_decorate_alike (d : Source.decorator) (dd : Distribution.decorator)
    (descriptor : @PropertyDescriptor U) w :
  (is_function (d_get descriptor) = true → d_value descriptor = PValue VUndefined) →
  (is_function (d_get descriptor) = false → d_get descriptor = PValue VUndefined) →
  match d_value descriptor, d_get descriptor with
  | PFunction f, _ =>
      Source.decorator_apply d descriptor
        = Ok (DMethod f (Source.d_options d) (Source.memoizedMethodsMap d)) ∧
      Distribution.decorator_apply dd descriptor w
        = (Ok (DMethod f (Distribution.d_options dd) (next_id w)),
           set_next_id (S (next_id w)) w)
  | PValue VUndefined, PFunction g =>
      Source.decorator_apply d descriptor = Ok (DGetter g (Source.memoizedValuesMap d)) ∧
      Distribution.decorator_apply dd descriptor w
        = (Ok (DGetter g (next_id w)), set_next_id (S (next_id w)) w)
  | _, _ =>
      Source.decorator_apply d descriptor
        = TypeError "The decorated value must be a function or a getter" ∧
      Distribution.decorator_apply dd descriptor w
        = (TypeError "The decorated value must be a function or a getter", w)
  end.
Proof.
  destruct descriptor as [[v|f] [gv|g]]; simpl; intros Hacc Hdata.
  - specialize (Hdata eq_refl) as [= ->].
    unfold Source.decorator_apply, Distribution.decorator_apply. simpl.
    destruct v as [| |[]|n|s|i|m]; simpl; try done.
    + destruct n as [z| | |]; simpl; try done. by case_bool_decide.
    + by case_bool_decide.
  - specialize (Hacc eq_refl) as [= ->]. done.
  - specialize (Hdata eq_refl) as [= ->]. done.
  - by specialize (Hacc eq_refl).
Qed.

Lemma call_ignores_this f :
  ignores_this f = true →
  ∀ (this this' : value) (arguments_ : list value) w,
    call f this arguments_ w = call f this' arguments_ w.
Proof.
  induction f as [id code | id target IH bt | id fn IH ck c ma]; simpl; [done|done|].
  intros Hfn this this' arguments_ w. by rewrite (IH Hfn this this').
Qed.

Lemma memoize_bound_ignores_this originalMethod (r : value) o w f w' :
  memoize (fst (bind originalMethod r w)) o (snd (bind originalMethod r w)) = (Ok f, w') →
  ignores_this f = true.
Proof.
  unfold bind, memoize, fresh. simpl.
  destruct (match cache o with Some c => _ | None => _ end) as [c w0].
  destruct (is_zero (maxAge o)); [by intros [= <- _]|].
  destruct (maxAge_error (maxAge o)); [done|]. by intros [= <- _].
Qed.

Lemma builds_agree_once originalMethod o (table this : nat) (arguments_ : list value) w :
  (∀ r f, fslots w !! (table, r) = Some f → ignores_this f = true) →
  Source.memoized_value originalMethod o table this arguments_ w
    = memoized_value_with VRef originalMethod o table this arguments_ w ∧
  (∀ r f, fslots (snd (Source.memoized_value originalMethod o table this arguments_ w))
            !! (table, r) = Some f → ignores_this f = true).
Proof.
  intros Hslots.
  unfold Source.memoized_value, memoized_value_with.
  destruct (fslots w !! (table, this)) as [f|] eqn:Hslot.
  - split; [by apply call_ignores_this, (Hslots this)|].
    intros r g. destruct (call_frame f VUndefined arguments_ w) as (_ & -> & _).
    apply Hslots.
  - pose proof (memoize_bound_ignores_this originalMethod (VRef this) o w) as Hb.
    assert (Hfs : fslots (snd (memoize (fst (bind originalMethod (VRef this) w)) o
                                 (snd (bind originalMethod (VRef this) w)))) = fslots w).
    { unfold bind, memoize, alloc_Map, fresh. simpl.
      destruct (cache o); simpl; destruct (is_zero (maxAge o)); simpl;
        try destruct (maxAge_error (maxAge o)); done. }
    destruct (bind originalMethod (VRef this) w) as [bound w1]. simpl in Hb, Hfs.
    destruct (memoize bound o w1) as [[f|message] w2]; simpl in Hfs.
    2:{ split; [done|]. simpl. rewrite Hfs. apply Hslots. }
    specialize (Hb f w2 eq_refl).
    split; [by apply call_ignores_this|].
    intros r g.
    match goal with |- context [call f VUndefined arguments_ ?w3] =>
      destruct (call_frame f VUndefined arguments_ w3) as (_ & -> & _) end.
    simpl. rewrite Hfs. destruct (decide (r = this)) as [->|Hne].
    + rewrite lookup_insert_eq. by intros [= <-].
    + rewrite lookup_insert_ne by congruence. apply Hslots.
Qed.

Lemma builds_agree_history originalMethod o (table : nat) history : ∀ w0,
  (∀ r f, fslots w0 !! (table, r) = Some f → ignores_this f = true) →
  invocations (Source.memoized_value originalMethod o table) history w0
    = invocations (memoized_value_with (U:=U) VRef originalMethod o table) history w0 ∧
  (∀ r f, fslots (invocations (Source.memoized_value originalMethod o table) history w0)
            !! (table, r) = Some f → ignores_this f = true).
Proof.
  induction history as [|[r a] rest IH]; intros w0 Hslots; simpl; [done|].
  destruct (builds_agree_once originalMethod o table r a w0 Hslots) as [Heq Hnext].
  rewrite <- Heq. by apply IH.
Qed.

(** The two builds of a decorated method behave alike on receivers that
    are extensible and not on each other's prototype chain.  When the
    slots of the table hold nothing, or, for these receivers, functions
    that do not depend on the receiver they are called with, as the
    decorated method itself leaves them, then any history of invocations
    on these receivers ends in the same world in both builds, and the next
    invocation has the same outcome. *)
Theorem builds_agree_on_methods objects originalMethod o (table : nat) ids w0 :
  unrelated objects ids →
  (∀ r f, fslots w0 !! (table, r) = Some f → r ∈ ids ∧ ignores_this f = true) →
  ∀ history (this : nat) (arguments_ : list value),
    (∀ r a, (r, a) ∈ history → r ∈ ids) →
    this ∈ ids →
    invocations (Source.memoized_value originalMethod o table) history w0
      = invocations (Distribution.memoized_value (U:=U) objects originalMethod o table)
          history w0 ∧
    Source.memoized_value originalMethod o table this arguments_
      (invocations (Source.memoized_value originalMethod o table) history w0)
    = Distribution.memoized_value objects originalMethod o table this arguments_
        (invocations (Distribution.memoized_value objects originalMethod o table)
           history w0).
Proof.
  intros Hun Hslots history this arguments_ Hhist Hthis.
  destruct (distribution_history objects originalMethod o table ids history w0 Hun)
    as [Hd Hids]; [|done|].
  { intros x [f Hx]. by destruct (Hslots x f Hx). }
  destruct (builds_agree_history originalMethod o table history w0) as [Hs Hign].
  { intros r f Hr. by destruct (Hslots r f Hr). }
  rewrite Hd, <- Hs. split; [done|].
  destruct (Hun this Hthis) as [Hext Hprotos].
  rewrite memoized_value_distribution; [by apply builds_agree_once|done|].
  intros p Hp.
  destruct (fslots (invocations (Source.memoized_value originalMethod o table) history w0)
              !! (table, p)) eqn:E; [|done].
  destruct (Hprotos p Hp). apply Hids. rewrite <- Hs. by rewrite E.
Qed.




(** In the source the two side tables belong to the decorator returned by
    [memoizeDecorator], not to its application: applied to two getters, or
    to two methods, it hands both the same table.  So once a read of the
    first getter on a receiver has returned, the second getter read on that
    receiver returns the first one's value and its own body is not run;
    and a receiver that holds a remembered function gets it called
    whichever of the two decorated methods is invoked.  In the distributed
    build every application makes its own symbol. *)
Theorem source_decorator_shares_tables o w (g1 g2 : @func U) :
  let d := fst (Source.memoizeDecorator o w) in
  let t := Source.memoizedValuesMap d in
  let tm := Source.memoizedMethodsMap d in
  Source.decorator_apply d {| d_value := PValue VUndefined; d_get := PFunction g1 |}
    = Ok (DGetter g1 t) ∧
  Source.decorator_apply d {| d_value := PValue VUndefined; d_get := PFunction g2 |}
    = Ok (DGetter g2 t) ∧
  Source.decorator_apply d {| d_value := PFunction g1; d_get := PValue VUndefined |}
    = Ok (DMethod g1 o tm) ∧
  Source.decorator_apply d {| d_value := PFunction g2; d_get := PValue VUndefined |}
    = Ok (DMethod g2 o tm) ∧
  (∀ (this : nat) w1 v w2,
     Source.use (DGetter g1 t) this [] w1 = (Return v, w2) →
     Source.use (DGetter g2 t) this [] w2 = (Return v, w2)) ∧
  (∀ (this : nat) (arguments_ : list value) w1,
     is_Some (fslots w1 !! (tm, this)) →
     Source.use (DMethod g2 o tm) this arguments_ w1
       = Source.use (DMethod g1 o tm) this arguments_ w1) ∧
  (let dd := Distribution.memoizeDecorator o in
   let first :=
     Distribution.decorator_apply dd
       {| d_value := PValue VUndefined; d_get := PFunction g1 |} w in
   let second :=
     Distribution.decorator_apply dd
       {| d_value := PValue VUndefined; d_get := PFunction g2 |} (snd first) in
   fst first = Ok (DGetter g1 (next_id w)) ∧
   fst second = Ok (DGetter g2 (S (next_id w)))).
Proof.
  simpl. repeat split.
  - intros this w1 v w2. unfold Source.memoized_get.
    destruct (vslots w1 !! (S (next_id w), this)) as [v0|] eqn:Hslot.
    + intros [= <- <-]. by rewrite Hslot.
    + destruct (call g1 (VRef this) [] w1) as [[v1|e] w3]; [|done].
      intros [= <- <-]. simpl. by rewrite lookup_insert_eq.
  - intros this arguments_ w1 [f Hf]. unfold Source.memoized_value. by rewrite Hf.
Qed.

Lemma miss_effect id function_ ck (c : nat) (m : num)
    (this : value) (arguments_ : list value) w r w1 :
  m ≠ NPosInf →
  cache_get c (derive_key ck arguments_) w = None →
  call function_ this arguments_ w = (Return r, w1) →
  let w' := snd (call (Memoized id function_ ck c (Some m)) this arguments_ w) in
  w' = register_timer (fid function_) c (derive_key ck arguments_) m
         (cache_set c (derive_key ck arguments_)
            {| data := r; expiresAt := expiry (Some m) (now w1) |} w1) ∧
  timers w' !! next_id w1
    = Some {| t_cache := c; t_key := derive_key ck arguments_;
              t_due := now w1 + timer_delay m |} ∧
  (∀ h, h ≠ fid function_ → recorded h w' = recorded h w1) ∧
  has_clear (storage_of c w') = has_clear (storage_of c w1) ∧
  cacheStore w' = cacheStore w.
Proof.
  intros Hinf Hmiss Hret w'. subst w'.
  rewrite (call_miss id function_ ck c _ this arguments_ w Hmiss), Hret.
  cbn [snd]. unfold schedule. rewrite bool_decide_eq_false_2 by done.
  split; [done|].
  destruct (call_frame function_ this arguments_ w) as (Hcs & _).
  rewrite Hret in Hcs. simpl in Hcs.
  unfold register_timer, setTimeout, fresh, recorded, storage_of. simpl.
  split; [by rewrite lookup_insert_eq|]. split.
  { intros h Hne. by rewrite lookup_insert_ne. }
  split; [by rewrite lookup_insert_eq|done].
Qed.

(** ** Which entries and timers a call and a clear touch *)

(** A call writes only where its wrappers look: a storage slot that is not
    the derived key of one of the wrappers of the chain is left as it
    is. *)
Theorem call_writes_own_slots f : ∀ (this : value) (arguments_ : list value) w
    (c : nat) (key : value),
  (c, key) ∉ slots_of f arguments_ →
  cache_get c key (snd (call f this arguments_ w)) = cache_get c key w.
Proof.
  induction f as [id code | id target IH bt | id fn IH ck c0 ma];
    intros this arguments_ w c key Hnot; simpl in *.
  - by destruct (code this arguments_ (user w)) as [r u].
  - by apply IH.
  - apply not_elem_of_cons in Hnot as [Hne Hnot].
    destruct (cache_get c0 (derive_key ck arguments_) w) as [item0|]; [done|].
    specialize (IH this arguments_ w c key Hnot).
    destruct (call fn this arguments_ w) as [[r|e] w1]; simpl in *; [|exact IH].
    rewrite cache_get_schedule. rewrite cache_get_set_ne; [exact IH | congruence].
Qed.

(** [memoizeClear] on a wrapper does not reach the timer the wrapper
    itself has just created: that timer is recorded under the identity of
    the original.  Provided the handles recorded for the wrapper are
    handles in use, the timer created by a miss is still pending after
    [memoizeClear(wrapper)], with its storage, key and due time. *)
Theorem clear_leaves_wrapper_timer id function_ ck (c : nat) (m : num)
    (this : value) (arguments_ : list value) w r w1 :
  let key := derive_key ck arguments_ in
  let memoized := Memoized id function_ ck c (Some m) in
  m ≠ NPosInf →
  id ≠ fid function_ →
  cacheStore w !! id = Some c →
  has_clear (storage_of c w1) = true →
  (∀ t, t ∈ recorded id w1 → (t < next_id w1)%nat) →
  cache_get c key w = None →
  call function_ this arguments_ w = (Return r, w1) →
  let w' := snd (call memoized this arguments_ w) in
  ∃ w2, memoizeClear memoized w' = (Ok (), w2) ∧
        cache_get c key w2 = None ∧
        timers w2 !! next_id w1
          = Some {| t_cache := c; t_key := key; t_due := now w1 + timer_delay m |}.
Proof.
  intros key memoized Hinf Hid Hstore Hclear Halloc Hmiss Hret w'.
  destruct (miss_effect id function_ ck c m this arguments_ w r w1 Hinf Hmiss Hret)
    as (Hw' & Ht & Hrec & Hhc & Hcs).
  fold memoized key w' in Hw', Ht, Hrec, Hhc, Hcs.
  unfold memoizeClear. simpl fid. rewrite Hcs, Hstore, Hhc, Hclear.
  destruct (clear_all_timers (recorded id (cache_clear c w')) (cache_clear c w'))
    as (m2 & -> & Hm2).
  eexists. split; [reflexivity|]. split.
  { unfold cache_get, storage_of. simpl. by rewrite lookup_insert_eq. }
  simpl. rewrite Hm2. simpl. rewrite bool_decide_eq_false_2; [by rewrite Ht|].
  unfold recorded. simpl. fold (recorded id w'). rewrite (Hrec id Hid).
  intros Hin. specialize (Halloc _ Hin). lia.
Qed.

End Further.

(** * The statements on concrete programs *)

Lemma memoized_lookup_or_compute_witness :
  maxAge no_options ≠ Some (NInt 0) ∧
  maxAge_error (maxAge no_options) = None ∧
  ∃ id c w1,
    memoize counter_f no_options counter_w
      = (Ok (Memoized id counter_f (cacheKey no_options) c (maxAge no_options)), w1) ∧
    cacheStore w1 !! id = Some c.
Proof.
  split; [discriminate|]. split; [reflexivity|].
  destruct (memoized_lookup_or_compute counter_f no_options counter_w)
    as (_ & _ & id & c & w1 & H1 & H2 & _); [discriminate | reflexivity |].
  exists id, c, w1. split; [exact H1 | exact H2].
Defined.

(** After [memoized('foo')] the wrapper of [counter], whose identity is 2
    and whose storage is the [Map] 1, is cleared. *)
Lemma memoizeClear_empties_and_cancels_witness :
  cacheStore timed_called !! 2%nat = Some 1%nat ∧
  has_clear (storage_of 1 timed_called) = true ∧
  ∃ w1, memoizeClear timed timed_called = (Ok (), w1) ∧
        entries (storage_of 1 w1) = ∅ ∧
        cacheTimerStore w1 = cacheTimerStore timed_called.
Proof.
  split; [vm_compute; reflexivity|]. split; [vm_compute; reflexivity|].
  destruct (memoizeClear_empties_and_cancels 2 counter_f None 1 (Some (NInt 1000)) timed_called)
    as (w1 & H1 & H2 & _ & _ & H3 & _);
    [vm_compute; reflexivity | vm_compute; reflexivity |].
  exists w1. split; [exact H1|]. split; [exact H2 | exact H3].
Defined.

(** C2, as stated, fails on [outer = memoize(memoized, {maxAge: 1000})]
    after [outer('foo')]: the identity of [memoized] holds a storage
    association, and the handle 6 of [outer]'s eviction timer is recorded
    for it.  [memoizeClear(memoized)] succeeds and cancels that timer in
    the host, yet the handle is still in the set recorded for [memoized]:
    it is not removed from the pending set. *)
Lemma memoizeClear_keeps_recorded_handles :
  cacheStore outer_called !! fid timed = Some 1%nat ∧
  6%nat ∈ recorded (fid timed) outer_called ∧
  fst (memoizeClear timed outer_called) = Ok () ∧
  timers (snd (memoizeClear timed outer_called)) !! 6%nat = None ∧
  ¬ (∀ t, t ∈ recorded (fid timed) outer_called →
          t ∉ recorded (fid timed) (snd (memoizeClear timed outer_called))).
Proof.
  assert (H6 : 6%nat ∈ recorded (fid timed) outer_called).
  { refine (bool_decide_unpack _ _). vm_compute. exact I. }
  split; [vm_compute; reflexivity|]. split; [exact H6|].
  split; [vm_compute; reflexivity|]. split; [vm_compute; reflexivity|].
  intros Hall. apply (Hall 6%nat H6).
  refine (bool_decide_unpack _ _). vm_compute. exact I.
Qed.

(** A remark on the timers of a wrapper.  [memoize] records them under the
    identity of the original, [memoizeClear] looks under the identity it is
    given.  So after [memoized('foo')] with [maxAge: 1000] and
    [memoizeClear(memoized)] half a second later, timer 3 is still pending;
    [memoized('foo')] recomputes and stores 2, and when timer 3 runs at
    its due time it deletes that entry, half a second old: the next call
    computes 3. *)
Lemma timer_of_wrapper_survives_clear :
  recorded (fid timed) timed_called = ∅ ∧
  timers cleared_w !! 3%nat = Some {| t_cache := 1; t_key := VStr "foo"; t_due := 1000 |} ∧
  fst (call timed VUndefined [VStr "foo"] cleared_w) = Return (VNum (NInt 2)) ∧
  data <$> cache_get 1 (VStr "foo") later_w = Some (VNum (NInt 2)) ∧
  ∃ w', fire 3 later_w = Some w' ∧
        cache_get 1 (VStr "foo") w' = None ∧
        fst (call timed VUndefined [VStr "foo"] w') = Return (VNum (NInt 3)).
Proof.
  split; [vm_compute; reflexivity|]. split; [vm_compute; reflexivity|].
  split; [vm_compute; reflexivity|]. split; [vm_compute; reflexivity|].
  destruct (fire_evicts 3 {| t_cache := 1; t_key := VStr "foo"; t_due := 1000 |} later_w)
    as (w' & Hfire & Hgone & _); [vm_compute; reflexivity | vm_compute; discriminate |].
  exists w'. split; [exact Hfire|]. split; [exact Hgone|].
  assert (Some w' = fire 3 later_w) as Hw by done.
  vm_compute in Hw. injection Hw as ->. vm_compute. reflexivity.
Qed.

(** C4, as stated, fails for [memoizeDecorator({maxAge: -1})]: the option
    is out of range, yet creating the decorator and applying it to a
    method succeeds in both builds, and a getter decorated with it reads
    its value. *)
Lemma memoizeDecorator_accepts_bad_maxAge :
  maxAge_error (maxAge (with_maxAge (-1)))
    = Some "The `maxAge` option should not be a negative number."%string ∧
  Source.decorator_apply (fst (Source.memoizeDecorator (with_maxAge (-1)) counter_w))
    (a_method counter_f) = Ok (DMethod counter_f (with_maxAge (-1)) 1) ∧
  fst (Distribution.decorator_apply (Distribution.memoizeDecorator (with_maxAge (-1)))
         (a_method counter_f) counter_w) = Ok (DMethod counter_f (with_maxAge (-1)) 1) ∧
  fst (Source.use
         (decorated_or (DMethod counter_f no_options 0)
            (Source.decorator_apply
               (fst (Source.memoizeDecorator (with_maxAge (-1)) counter_w))
               (a_getter counter_f)))
         instance_a [] (snd (Source.memoizeDecorator (with_maxAge (-1)) counter_w)))
    = Return (VNum (NInt 1)).
Proof. repeat split; vm_compute; reflexivity. Qed.

Lemma maxAge_out_of_range_rejected_witness :
  maxAge (with_maxAge 2147483648) = Some (NInt 2147483648) ∧
  (num_lt (NInt 2147483648) (NInt 0) = true ∨
   num_gt (NInt 2147483648) (NInt maxSetIntervalValue) = true) ∧
  fst (memoize counter_f (with_maxAge 2147483648) counter_w)
    = TypeError "The `maxAge` option cannot exceed 2147483647." ∧
  cacheStore (snd (memoize counter_f (with_maxAge 2147483648) counter_w)) = cacheStore counter_w.
Proof.
  split; [reflexivity|]. split; [right; reflexivity|].
  destruct (maxAge_out_of_range_rejected counter_f (with_maxAge 2147483648)
              (NInt 2147483648) counter_w)
    as ((message & Herr & Hmem & Hstore & _) & _); [reflexivity | right; reflexivity |].
  vm_compute in Herr. injection Herr as <-. split; [exact Hmem | exact Hstore].
Defined.

Lemma original_failure_propagates_witness :
  cache_get 1 (derive_key None [VNum (NInt 7)]) failing_w = None ∧
  call failing_f VUndefined [VNum (NInt 7)] failing_w
    = (Throw (VStr "boom"), snd (call failing_f VUndefined [VNum (NInt 7)] failing_w)) ∧
  call (Memoized 2 failing_f None 1 None) VUndefined [VNum (NInt 7)] failing_w
    = (Throw (VStr "boom"), snd (call failing_f VUndefined [VNum (NInt 7)] failing_w)) ∧
  caches (snd (call failing_f VUndefined [VNum (NInt 7)] failing_w)) = caches failing_w.
Proof.
  split; [vm_compute; reflexivity|]. split; [vm_compute; reflexivity|].
  destruct (original_failure_propagates 2 failing_f None 1 None VUndefined
              [VNum (NInt 7)] failing_w (VStr "boom")
              (snd (call failing_f VUndefined [VNum (NInt 7)] failing_w)))
    as (H1 & H2 & _); [vm_compute; reflexivity | vm_compute; reflexivity |].
  split; [exact H1 | exact H2].
Defined.

Lemma memoizeClear_errors_witness :
  memoizeClear counter_f counter_w
    = (TypeError "Can't clear a function that was not memoized!", counter_w) ∧
  has_clear (storage_of 1 weak_memoized_w) = false ∧
  memoizeClear weak weak_memoized_w
    = (TypeError "The cache Map can't be cleared!", weak_memoized_w).
Proof.
  split; [exact (memoizeClear_errors counter_f counter_w)|].
  split; [vm_compute; reflexivity|].
  exact (memoizeClear_errors weak weak_memoized_w eq_refl).
Defined.

(** Five seconds after [memoized('foo')] with [maxAge: 1000], the eviction
    timer 3 not having run. *)
Lemma stale_entry_is_a_hit_witness :
  cache_get 1 (derive_key None [VStr "foo"]) timed_called
    = Some {| data := VNum (NInt 1); expiresAt := NInt 1000 |} ∧
  0 ≤ 5000 ∧
  num_lt (NInt 1000) (NInt (now (advance 5000 timed_called))) = true ∧
  timers (advance 5000 timed_called) !! 3%nat
    = Some {| t_cache := 1; t_key := VStr "foo"; t_due := 1000 |} ∧
  call timed VUndefined [VStr "foo"] (advance 5000 timed_called)
    = (Return (VNum (NInt 1)), advance 5000 timed_called).
Proof.
  split; [vm_compute; reflexivity|]. split; [discriminate|].
  split; [vm_compute; reflexivity|]. split; [vm_compute; reflexivity|].
  destruct (stale_entry_is_a_hit 2 counter_f None 1 (Some (NInt 1000)) VUndefined
              [VStr "foo"] timed_called
              {| data := VNum (NInt 1); expiresAt := NInt 1000 |})
    as (_ & H); [vm_compute; reflexivity|].
  destruct (H 5000) as (_ & H2); [discriminate | vm_compute; reflexivity|].
  exact H2.
Defined.

Lemma getter_computed_once_per_receiver_witness :
  ((Source.memoized_get counter_f 1 = Source.memoized_get counter_f 1 ∧
    (λ _ : nat, true) = (λ _ : nat, true)) ∨
   (Source.memoized_get counter_f 1 = Distribution.memoized_get plain_objects counter_f 1 ∧
    (λ _ : nat, true) = (λ r, extensible (plain_objects r)))) ∧
  vslots (snd (Source.memoized_get counter_f 1 instance_a counter_w)) !! (1%nat, instance_a)
    = Some (VNum (NInt 1)) ∧
  Source.memoized_get counter_f 1 instance_a
    (reads (Source.memoized_get counter_f 1) [instance_b; instance_a]
       (snd (Source.memoized_get counter_f 1 instance_a counter_w)))
  = (Return (VNum (NInt 1)),
     reads (Source.memoized_get counter_f 1) [instance_b; instance_a]
       (snd (Source.memoized_get counter_f 1 instance_a counter_w))).
Proof.
  split; [left; split; reflexivity|]. split; [vm_compute; reflexivity|].
  destruct (getter_computed_once_per_receiver counter_f 1 plain_objects
              (Source.memoized_get counter_f 1) (λ _, true))
    as (_ & H & _); [left; split; reflexivity|].
  destruct (H instance_a (VNum (NInt 1))
              (snd (Source.memoized_get counter_f 1 instance_a counter_w)))
    with (receivers := [instance_b; instance_a]) as (_ & H2);
    [vm_compute; reflexivity|].
  exact H2.
Defined.

(** C8, as stated, fails in two ways.  A getter whose body throws is
    computed on every read: decorated by [memoizeDecorator()], two reads
    on the same receiver both throw and the body has run twice, in both
    builds.  And in the distributed build a getter read on a frozen
    receiver never fixes its value: the body returns, defining the
    property throws, and the next read runs the body again. *)
Lemma getter_body_runs_on_every_failed_read :
  failing_getter_source = DGetter failing_f 2 ∧
  failing_getter_distribution = DGetter failing_f 1 ∧
  counter_getter_distribution = DGetter counter_f 1 ∧
  (let first := Source.use failing_getter_source instance_a [] failing_getter_source_w in
   let second := Source.use failing_getter_source instance_a [] (snd first) in
   fst first = Throw (VStr "boom") ∧
   fst second = Throw (VStr "boom") ∧
   calls (snd second)
     = [{| i_fn := 0; i_this := VRef instance_a; i_args := [] |};
        {| i_fn := 0; i_this := VRef instance_a; i_args := [] |}]) ∧
  (let first :=
     Distribution.use plain_objects failing_getter_distribution instance_a []
       failing_getter_distribution_w in
   let second :=
     Distribution.use plain_objects failing_getter_distribution instance_a [] (snd first) in
   fst first = Throw (VStr "boom") ∧
   fst second = Throw (VStr "boom") ∧
   calls (snd second)
     = [{| i_fn := 0; i_this := VRef instance_a; i_args := [] |};
        {| i_fn := 0; i_this := VRef instance_a; i_args := [] |}]) ∧
  (extensible (frozen_objects instance_a) = false ∧
   let first :=
     Distribution.use frozen_objects counter_getter_distribution instance_a []
       counter_getter_distribution_w in
   let second :=
     Distribution.use frozen_objects counter_getter_distribution instance_a [] (snd first) in
   fst first = Throw (VTypeError cannot_define) ∧
   fst second = Throw (VTypeError cannot_define) ∧
   user (snd second) = 2%nat ∧
   calls (snd second)
     = [{| i_fn := 0; i_this := VRef instance_a; i_args := [] |};
        {| i_fn := 0; i_this := VRef instance_a; i_args := [] |}]).
Proof.
  repeat split; vm_compute; reflexivity.
Qed.



Lemma falsy_result_is_a_hit_witness :
  truthy (VNum (NInt 0)) = false ∧
  cache_get 1 (derive_key None [VStr "x"]) zero_w = None ∧
  call zero_f VUndefined [VStr "x"] zero_w
    = (Return (VNum (NInt 0)), snd (call zero_f VUndefined [VStr "x"] zero_w)) ∧
  ∃ w2, call (Memoized 2 zero_f None 1 None) VUndefined [VStr "x"] zero_w
          = (Return (VNum (NInt 0)), w2) ∧
        call (Memoized 2 zero_f None 1 None) VUndefined [VStr "x"; VNum (NInt 3)] w2
          = (Return (VNum (NInt 0)), w2).
Proof.
  split; [reflexivity|]. split; [vm_compute; reflexivity|].
  split; [vm_compute; reflexivity|].
  destruct (falsy_result_is_a_hit 2 zero_f None 1 None VUndefined [VStr "x"] zero_w
              (VNum (NInt 0)) (snd (call zero_f VUndefined [VStr "x"] zero_w)))
    as (w2 & H1 & _ & H2);
    [reflexivity | vm_compute; reflexivity | vm_compute; reflexivity |].
  exists w2. split; [exact H1|]. apply (H2 VUndefined). reflexivity.
Defined.

(** * Further statements on concrete programs *)

Lemma call_keeps_entries_witness :
  cache_get 1 (VStr "foo") timed_called
    = Some {| data := VNum (NInt 1); expiresAt := NInt 1000 |} ∧
  cache_get 1 (VStr "foo") (snd (call timed VUndefined [VStr "bar"] timed_called))
    = Some {| data := VNum (NInt 1); expiresAt := NInt 1000 |}.
Proof.
  split; [vm_compute; reflexivity|].
  apply (call_keeps_entries timed VUndefined [VStr "bar"] timed_called).
  vm_compute; reflexivity.
Defined.

Lemma wrappers_share_storage_witness :
  cache_get 2 (derive_key None [VStr "k"]) pair_w = None ∧
  call counter_f VUndefined [VStr "k"] pair_w
    = (Return (VNum (NInt 1)), snd (call counter_f VUndefined [VStr "k"] pair_w)) ∧
  call pair_second VUndefined [VStr "k"]
    (snd (call pair_first VUndefined [VStr "k"] pair_w))
  = (Return (VNum (NInt 1)), snd (call pair_first VUndefined [VStr "k"] pair_w)).
Proof.
  split; [vm_compute; reflexivity|]. split; [vm_compute; reflexivity|].
  apply (wrappers_share_storage 3 4 counter_f pair_zero None None 2 None None
           VUndefined VUndefined [VStr "k"] [VStr "k"] pair_w (VNum (NInt 1))
           (snd (call counter_f VUndefined [VStr "k"] pair_w)));
    [vm_compute; reflexivity | vm_compute; reflexivity | reflexivity].
Defined.

Lemma miss_schedules_eviction_witness :
  Some (NInt 1000) ≠ Some NPosInf ∧
  cache_get 1 (derive_key None [VStr "foo"]) timed_w = None ∧
  call counter_f VUndefined [VStr "foo"] timed_w
    = (Return (VNum (NInt 1)), snd (call counter_f VUndefined [VStr "foo"] timed_w)) ∧
  timers timed_called
    = <[3%nat := {| t_cache := 1; t_key := VStr "foo"; t_due := 0 + 1000 |}]>
        (timers (snd (call counter_f VUndefined [VStr "foo"] timed_w))) ∧
  recorded 0 timed_called
    = recorded 0 (snd (call counter_f VUndefined [VStr "foo"] timed_w)) ∪ {[3%nat]}.
Proof.
  split; [discriminate|]. split; [vm_compute; reflexivity|].
  split; [vm_compute; reflexivity|].
  destruct (miss_schedules_eviction 2 counter_f None 1 (Some (NInt 1000)) VUndefined
              [VStr "foo"] timed_w (VNum (NInt 1))
              (snd (call counter_f VUndefined [VStr "foo"] timed_w)))
    as (_ & H1 & H2 & _);
    [discriminate | vm_compute; reflexivity | vm_compute; reflexivity |].
  split; [exact H1 | exact H2].
Defined.

Lemma entry_evicted_when_timer_runs_witness :
  1 ≤ 1000 ≤ maxSetIntervalValue ∧
  cache_get 1 (derive_key None [VStr "foo"]) timed_w = None ∧
  fire 3 (advance 999 timed_called) = None ∧
  ∃ w'', fire 3 (advance 1000 timed_called) = Some w'' ∧
         cache_get 1 (VStr "foo") w'' = None.
Proof.
  split; [vm_compute; split; discriminate|]. split; [vm_compute; reflexivity|].
  destruct (entry_evicted_when_timer_runs 2 counter_f None 1 1000 VUndefined
              [VStr "foo"] timed_w (VNum (NInt 1))
              (snd (call counter_f VUndefined [VStr "foo"] timed_w)))
    as (Hbefore & Hafter);
    [vm_compute; split; discriminate | vm_compute; reflexivity
    | vm_compute; reflexivity |].
  split; [apply (Hbefore 999); reflexivity|].
  destruct (Hafter 1000) as (w'' & Hfire & Hgone & _); [discriminate|].
  exists w''. split; [exact Hfire | exact Hgone].
Defined.

Lemma fire_touches_one_key_witness :
  timers (advance 1000 timed_called) !! 3%nat
    = Some {| t_cache := 1; t_key := VStr "foo"; t_due := 1000 |} ∧
  fire 3 (advance 1000 timed_called)
    = Some (default timed_called (fire 3 (advance 1000 timed_called))) ∧
  cacheTimerStore (default timed_called (fire 3 (advance 1000 timed_called)))
    = cacheTimerStore (advance 1000 timed_called) ∧
  cache_get 1 (VStr "foo") (default timed_called (fire 3 (advance 1000 timed_called)))
    = None.
Proof.
  split; [vm_compute; reflexivity|]. split; [vm_compute; reflexivity|].
  destruct (fire_touches_one_key 3 {| t_cache := 1; t_key := VStr "foo"; t_due := 1000 |}
              (advance 1000 timed_called)
              (default timed_called (fire 3 (advance 1000 timed_called))))
    as (_ & Hgone & _ & _ & _ & _ & Hrec & _);
    [vm_compute; reflexivity | vm_compute; reflexivity |].
  split; [exact Hrec | exact Hgone].
Defined.

Lemma library_never_forgets_witness :
  (next_id timed_w ≤ next_id (run a_program timed_w))%nat ∧
  (cacheStore timed_w !! 2%nat = Some 1%nat ∧
   cacheStore (run a_program timed_w) !! 2%nat = Some 1%nat).
Proof.
  destruct (library_never_forgets a_program timed_w) as (Hn & _ & Hs & _).
  split; [exact Hn|].
  assert (cacheStore timed_w !! 2%nat = Some 1%nat) as H by (vm_compute; reflexivity).
  split; [exact H|]. rewrite <- H. apply Hs. vm_compute. repeat constructor.
Defined.

Lemma memoizeClear_idempotent_witness :
  cacheStore timed_called !! fid timed = Some 1%nat ∧
  memoizeClear timed timed_called = (Ok (), snd (memoizeClear timed timed_called)) ∧
  memoizeClear timed (snd (memoizeClear timed timed_called))
    = (Ok (), snd (memoizeClear timed timed_called)).
Proof.
  split; [vm_compute; reflexivity|]. split; [vm_compute; reflexivity|].
  apply (memoizeClear_idempotent timed timed_called
           (snd (memoizeClear timed timed_called)) 1);
    vm_compute; reflexivity.
Defined.

Lemma memoizeClear_needs_the_wrapper_witness :
  cacheStore counter_w !! fid counter_f = None ∧
  (fid counter_f < next_id counter_w)%nat ∧
  memoizeClear counter_f (snd (memoize counter_f no_options counter_w))
    = (TypeError "Can't clear a function that was not memoized!",
       snd (memoize counter_f no_options counter_w)).
Proof.
  split; [vm_compute; reflexivity|]. split; [vm_compute; repeat constructor|].
  apply (memoizeClear_needs_the_wrapper counter_f no_options counter_w);
    [vm_compute; reflexivity | vm_compute; repeat constructor].
Defined.

Lemma memoize_accepts_iff_witness :
  -5 < 0 ∧
  fst (memoize counter_f (with_maxAge (-5)) counter_w)
    = TypeError "The `maxAge` option should not be a negative number.".
Proof.
  split; [reflexivity|].
  apply (proj2 (memoize_accepts_iff counter_f (with_maxAge (-5)) counter_w)).
  reflexivity.
Defined.

Lemma builds_decorate_alike_witness :
  (is_function (d_get (a_getter counter_f)) = true →
   d_value (a_getter counter_f) = PValue VUndefined) ∧
  (is_function (d_get (a_getter counter_f)) = false →
   d_get (a_getter counter_f) = PValue VUndefined) ∧
  Source.decorator_apply (fst (Source.memoizeDecorator no_options counter_w))
    (a_getter counter_f) = Ok (DGetter counter_f 2) ∧
  Distribution.decorator_apply (Distribution.memoizeDecorator no_options)
    (a_getter counter_f) counter_w
  = (Ok (DGetter counter_f 1), set_next_id 2 counter_w).
Proof.
  split; [intros _; reflexivity|]. split; [intros H; discriminate H|].
  exact (builds_decorate_alike (fst (Source.memoizeDecorator no_options counter_w))
           (Distribution.memoizeDecorator no_options) (a_getter counter_f) counter_w
           (λ _, eq_refl) (λ H, False_ind _ (eq_ind true (λ b : bool, if b then True else False) I false H))).
Defined.

Lemma builds_agree_on_methods_witness :
  unrelated plain_objects [instance_a; instance_b] ∧
  (∀ r f, fslots class_w !! (1%nat, r) = Some f →
          r ∈ [instance_a; instance_b] ∧ ignores_this f = true) ∧
  Source.memoized_value whoami_f no_options 1 instance_b [VNum (NInt 1)]
    (invocations (Source.memoized_value whoami_f no_options 1)
       [(instance_a, [VNum (NInt 1)])] class_w)
  = Distribution.memoized_value plain_objects whoami_f no_options 1 instance_b
      [VNum (NInt 1)]
      (invocations (Distribution.memoized_value plain_objects whoami_f no_options 1)
         [(instance_a, [VNum (NInt 1)])] class_w).
Proof.
  assert (Hun : unrelated plain_objects [instance_a; instance_b]).
  { intros r _. split; [reflexivity|]. intros p Hp. inversion Hp. }
  assert (H0 : ∀ r f, fslots class_w !! (1%nat, r) = Some f →
                      r ∈ [instance_a; instance_b] ∧ ignores_this f = true).
  { intros r f H.
    assert (fslots class_w !! (1%nat, r) = None) as E by apply lookup_empty.
    rewrite E in H. discriminate H. }
  split; [exact Hun|]. split; [exact H0|].
  apply (builds_agree_on_methods plain_objects whoami_f no_options 1
           [instance_a; instance_b] class_w Hun H0
           [(instance_a, [VNum (NInt 1)])] instance_b [VNum (NInt 1)]).
  - intros r a Hin. apply list_elem_of_singleton in Hin.
    injection Hin as -> _. apply list_elem_of_here.
  - apply list_elem_of_further, list_elem_of_here.
Defined.


(** With one decorator on the getters [counter] and [zero]: after the
    first has been read on an instance, reading the second answers 1. *)
Lemma source_decorator_shares_tables_witness :
  Source.use (DGetter counter_f 2) instance_a []
    (snd (Source.memoizeDecorator no_options counter_w))
  = (Return (VNum (NInt 1)),
     snd (Source.use (DGetter counter_f 2) instance_a []
            (snd (Source.memoizeDecorator no_options counter_w)))) ∧
  Source.use (DGetter zero_f 2) instance_a []
    (snd (Source.use (DGetter counter_f 2) instance_a []
            (snd (Source.memoizeDecorator no_options counter_w))))
  = (Return (VNum (NInt 1)),
     snd (Source.use (DGetter counter_f 2) instance_a []
            (snd (Source.memoizeDecorator no_options counter_w)))).
Proof.
  assert (H : Source.use (DGetter counter_f 2) instance_a []
                (snd (Source.memoizeDecorator no_options counter_w))
              = (Return (VNum (NInt 1)),
                 snd (Source.use (DGetter counter_f 2) instance_a []
                        (snd (Source.memoizeDecorator no_options counter_w)))))
    by (vm_compute; reflexivity).
  split; [exact H|].
  destruct (source_decorator_shares_tables no_options counter_w counter_f zero_f)
    as (_ & _ & _ & _ & Hshare & _).
  exact (Hshare instance_a _ _ _ H).
Defined.

Lemma call_writes_own_slots_witness :
  ((1%nat, VStr "foo") ∉ slots_of timed [VStr "bar"]) ∧
  cache_get 1 (VStr "foo") (snd (call timed VUndefined [VStr "bar"] timed_called))
    = cache_get 1 (VStr "foo") timed_called.
Proof.
  assert (H : (1%nat, VStr "foo") ∉ slots_of timed [VStr "bar"]).
  { intros Hin. apply (list_elem_of_singleton (1%nat, VStr "foo") (1%nat, VStr "bar")) in Hin.
    discriminate Hin. }
  split; [exact H|].
  exact (call_writes_own_slots timed VUndefined [VStr "bar"] timed_called 1 (VStr "foo") H).
Defined.

Lemma clear_leaves_wrapper_timer_witness :
  cacheStore timed_w !! 2%nat = Some 1%nat ∧
  cache_get 1 (derive_key None [VStr "foo"]) timed_w = None ∧
  ∃ w2, memoizeClear timed timed_called = (Ok (), w2) ∧
        timers w2 !! 3%nat
          = Some {| t_cache := 1; t_key := VStr "foo"; t_due := 0 + 1000 |}.
Proof.
  split; [vm_compute; reflexivity|]. split; [vm_compute; reflexivity|].
  destruct (clear_leaves_wrapper_timer 2 counter_f None 1 (NInt 1000) VUndefined
              [VStr "foo"] timed_w (VNum (NInt 1))
              (snd (call counter_f VUndefined [VStr "foo"] timed_w)))
    as (w2 & H1 & _ & H2).
  - discriminate.
  - discriminate.
  - vm_compute; reflexivity.
  - vm_compute; reflexivity.
  - intros t Hin.
    assert (recorded 2 (snd (call counter_f VUndefined [VStr "foo"] timed_w)) = ∅) as E
      by (vm_compute; reflexivity).
    rewrite E in Hin. by apply not_elem_of_empty in Hin.
  - vm_compute; reflexivity.
  - vm_compute; reflexivity.
  - exists w2. split; [exact H1 | exact H2].
Defined.
